(** * TcpServer: single-client TCP endpoint over a shared reactor

    A shallow embedding of [source/Common/TcpServer.cpp].

    - Module [Engine]: the three static members of [TcpServer] and the
      static operations [start] and [stop].
    - The endpoint: one [TcpServer] object, its Connection Slot [socket_],
      the completion handlers [accept_cb] and [read_cb], [writeClient],
      [isClientConnected], the constructor and the destructor.

    Handlers are written in a small state/trace/exception monad: every
    mutation goes through an [Action] that is both applied to the state and
    appended to the trace, so the state at each instant of a run is the
    replay of a prefix of its trace. *)

From Stdlib Require Import ZArith Lia List.
From Stdlib.Strings Require Import Byte.
From stdpp Require Import base decidable option list gmap sets.
Import ListNotations.

Local Open Scope Z_scope.

(* stdpp's solvers clear hypotheses that may be gone already. *)
#[local] Set Warnings "-clear-no-such-hyp".

(** boost::system::error_code: [!ec] holds exactly for the value 0. *)
Definition error_code := Z.

Definition failed (ec : error_code) : bool := negb (ec =? 0).

(* ===================================================================== *)
(** * Execution engine: the static members and [start] / [stop]          *)
(* ===================================================================== *)

Module Engine.

(** std::thread held by [s_server_thread_]. *)
Record thread := { tid : nat; joinable : bool }.

(** boost::asio::executor_work_guard: [reset()] gives up the work. *)
Record work_guard := { owns_work : bool }.

(** boost::asio::io_context. *)
Record io_context := { ctx_id : nat; ctx_stopped : bool }.

(** The static members (lines 190-192), together with what the process
    sees of them: the OS threads created and not yet joined, the threads
    for which FIFO scheduling was requested, and the allocators. *)
Record t := {
  s_server_thread_ : option thread;
  s_work_guard_ptr_ : option work_guard;
  s_io_context_ptr_ : option io_context;
  unjoined : list nat;
  fifo_requested : list nat;
  next_tid : nat;
  next_ctx : nat;
}.

(** Static initialisation: three null smart pointers. *)
Definition init : t :=
  {| s_server_thread_ := None; s_work_guard_ptr_ := None;
     s_io_context_ptr_ := None; unjoined := []; fifo_requested := [];
     next_tid := 0%nat; next_ctx := 0%nat |}.

Inductive static_ptr := WorkGuardPtr | IoContextPtr.

(** How a static operation ends: normally, by dereferencing a null smart
    pointer, or in std::terminate (a joinable std::thread destroyed). *)
Inductive outcome (A : Type) :=
| Done (a : A)
| NullDeref (p : static_ptr)
| Terminate.
Arguments Done {A} a.
Arguments NullDeref {A} p.
Arguments Terminate {A}.

Definition bind {A B} (m : outcome A) (k : A → outcome B) : outcome B :=
  match m with
  | Done a => k a
  | NullDeref p => NullDeref p
  | Terminate => Terminate
  end.

(** TcpServer::start, lines 125-148. *)
Definition start (e : t) : t :=
  match s_server_thread_ e with
  | Some _ => e
  | None =>
      let ctx := match s_io_context_ptr_ e with
                 | Some c => c
                 | None => {| ctx_id := next_ctx e; ctx_stopped := false |}
                 end in
      let nctx := match s_io_context_ptr_ e with
                  | Some _ => next_ctx e
                  | None => S (next_ctx e)
                  end in
      let th := next_tid e in
      {| s_server_thread_ := Some {| tid := th; joinable := true |};
         s_work_guard_ptr_ := Some {| owns_work := true |};
         (* the thread body restarts a stopped context before run() *)
         s_io_context_ptr_ := Some {| ctx_id := ctx_id ctx; ctx_stopped := false |};
         unjoined := unjoined e ++ [th];
         fifo_requested := fifo_requested e ++ [th];
         next_tid := S th;
         next_ctx := nctx |}
  end.

(** [s_work_guard_ptr_->reset()], line 151. *)
Definition release_work (e : t) : outcome t :=
  match s_work_guard_ptr_ e with
  | None => NullDeref WorkGuardPtr
  | Some _ =>
      Done {| s_server_thread_ := s_server_thread_ e;
              s_work_guard_ptr_ := Some {| owns_work := false |};
              s_io_context_ptr_ := s_io_context_ptr_ e;
              unjoined := unjoined e; fifo_requested := fifo_requested e;
              next_tid := next_tid e; next_ctx := next_ctx e |}
  end.

(** [s_io_context_ptr_->stop()], line 152. *)
Definition stop_context (e : t) : outcome t :=
  match s_io_context_ptr_ e with
  | None => NullDeref IoContextPtr
  | Some c =>
      Done {| s_server_thread_ := s_server_thread_ e;
              s_work_guard_ptr_ := s_work_guard_ptr_ e;
              s_io_context_ptr_ := Some {| ctx_id := ctx_id c; ctx_stopped := true |};
              unjoined := unjoined e; fifo_requested := fifo_requested e;
              next_tid := next_tid e; next_ctx := next_ctx e |}
  end.

(** Lines 153-155: join the thread when there is one and it is joinable. *)
Definition join_thread (e : t) : t :=
  match s_server_thread_ e with
  | Some th =>
      if joinable th then
        {| s_server_thread_ := Some {| tid := tid th; joinable := false |};
           s_work_guard_ptr_ := s_work_guard_ptr_ e;
           s_io_context_ptr_ := s_io_context_ptr_ e;
           unjoined := filter (λ x, x ≠ tid th) (unjoined e);
           fifo_requested := fifo_requested e;
           next_tid := next_tid e; next_ctx := next_ctx e |}
      else e
  | None => e
  end.

(** Lines 156-158: the three [reset()] calls. Destroying a std::thread
    that is still joinable calls std::terminate. *)
Definition reset_statics (e : t) : outcome t :=
  match s_server_thread_ e with
  | Some th => if joinable th then Terminate else
      Done {| s_server_thread_ := None; s_work_guard_ptr_ := None;
              s_io_context_ptr_ := None;
              unjoined := unjoined e; fifo_requested := fifo_requested e;
              next_tid := next_tid e; next_ctx := next_ctx e |}
  | None =>
      Done {| s_server_thread_ := None; s_work_guard_ptr_ := None;
              s_io_context_ptr_ := None;
              unjoined := unjoined e; fifo_requested := fifo_requested e;
              next_tid := next_tid e; next_ctx := next_ctx e |}
  end.

(** TcpServer::stop, lines 150-159. *)
Definition stop (e : t) : outcome t :=
  bind (release_work e) (λ e1,
  bind (stop_context e1) (λ e2,
  reset_statics (join_thread e2))).

(** Lifecycle calls made by the application, in order. *)
Inductive call := Start | Stop.

Fixpoint calls (cs : list call) (e : t) : outcome t :=
  match cs with
  | [] => Done e
  | Start :: cs' => calls cs' (start e)
  | Stop :: cs' => bind (stop e) (calls cs')
  end.

(** The engine is running when the thread pointer is set. *)
Definition running (e : t) : bool :=
  match s_server_thread_ e with Some _ => true | None => false end.

(** What every state reached by lifecycle calls satisfies: the three
    static pointers are set together, and the only unjoined thread is the
    one [s_server_thread_] holds. *)
Definition consistent (e : t) : Prop :=
  match s_server_thread_ e with
  | Some th =>
      joinable th = true ∧ unjoined e = [tid th] ∧
      is_Some (s_work_guard_ptr_ e) ∧ is_Some (s_io_context_ptr_ e)
  | None =>
      unjoined e = [] ∧ s_work_guard_ptr_ e = None ∧ s_io_context_ptr_ e = None
  end.

End Engine.

(* ===================================================================== *)
(** * Endpoint: one TcpServer object and the sockets around it           *)
(* ===================================================================== *)

(** A socket object, named by the order of its [make_shared] in [doAccept]. *)
Definition sock := nat.

Inductive SockOpt :=
| reuse_address | no_delay | keep_alive      (* lines 62-64 *)
| tcp_quickack | so_priority (v : Z).        (* lines 66-67, Linux only *)

Inductive Level := INFO | ERROR.

(** The four log sites of the file. *)
Inductive LogEvent :=
| NewConnectionCloseOld (old : sock)                  (* line 57 *)
| AcceptClient (s : sock)                             (* line 73 *)
| AcceptFailCloseOld (ec : error_code) (old : sock)   (* line 85 *)
| CloseClient (s : sock) (reason : error_code).       (* line 115 *)

(** Everything a handler or the reactor does to the endpoint, its sockets
    and its pending operations. *)
Inductive Action :=
| NewSocket (s : sock)                      (* make_shared<socket>, line 44 *)
| AsyncAccept (s : sock)                    (* acceptor_->async_accept, line 96 *)
| AcceptDone (s : sock) (ec : error_code)   (* reactor: the accept completed *)
| Cancel (s : sock)
| Shutdown (s : sock)
| Close (s : sock)
| SetOption (s : sock) (o : SockOpt) (ec : error_code)
| SlotAssign (s : sock)                     (* self->socket_ = new_socket *)
| SlotReset                                 (* socket_.reset() *)
| Log (l : Level) (e : LogEvent)
| AsyncRead (s : sock)                      (* boost::asio::async_read, line 122 *)
| ReadDone (s : sock)                       (* reactor: the read completed *)
| Deliver (data : list byte)                (* receive_cb_(buffer, n) *)
| Write (s : sock) (size : Z) (transferred : N) (ec : error_code)
| SetCallback
| AcceptorClose
| Expire.

(** The members of one TcpServer and the part of the world it acts on. *)
Record State := {
  acceptor_ : bool;             (* the unique_ptr is set *)
  socket_ : option sock;        (* the Connection Slot *)
  receive_cb_ : bool;           (* a callback is registered *)
  read_buffer_size : nat;       (* read_buffer_.size(), fixed at construction *)
  expired : bool;               (* weak_self.lock() fails *)
  open_socks : gset sock;       (* the sockets whose is_open() holds *)
  next_sock : sock;             (* the next socket make_shared creates *)
  accepting : gset sock;        (* sockets of the pending async_accept operations *)
  reading : gset sock;          (* sockets with a pending async_read *)
}.

Definition is_open (w : State) (s : sock) : bool := bool_decide (s ∈ open_socks w).

Definition set_socket_ (v : option sock) (w : State) : State :=
  {| acceptor_ := acceptor_ w; socket_ := v; receive_cb_ := receive_cb_ w;
     read_buffer_size := read_buffer_size w; expired := expired w;
     open_socks := open_socks w; next_sock := next_sock w;
     accepting := accepting w; reading := reading w |}.

Definition set_open_socks (v : gset sock) (w : State) : State :=
  {| acceptor_ := acceptor_ w; socket_ := socket_ w; receive_cb_ := receive_cb_ w;
     read_buffer_size := read_buffer_size w; expired := expired w;
     open_socks := v; next_sock := next_sock w;
     accepting := accepting w; reading := reading w |}.

Definition set_next_sock (v : sock) (w : State) : State :=
  {| acceptor_ := acceptor_ w; socket_ := socket_ w; receive_cb_ := receive_cb_ w;
     read_buffer_size := read_buffer_size w; expired := expired w;
     open_socks := open_socks w; next_sock := v;
     accepting := accepting w; reading := reading w |}.

Definition set_accepting (v : gset sock) (w : State) : State :=
  {| acceptor_ := acceptor_ w; socket_ := socket_ w; receive_cb_ := receive_cb_ w;
     read_buffer_size := read_buffer_size w; expired := expired w;
     open_socks := open_socks w; next_sock := next_sock w;
     accepting := v; reading := reading w |}.

Definition set_reading (v : gset sock) (w : State) : State :=
  {| acceptor_ := acceptor_ w; socket_ := socket_ w; receive_cb_ := receive_cb_ w;
     read_buffer_size := read_buffer_size w; expired := expired w;
     open_socks := open_socks w; next_sock := next_sock w;
     accepting := accepting w; reading := v |}.

Definition set_flags (acc cb ex : bool) (w : State) : State :=
  {| acceptor_ := acc; socket_ := socket_ w; receive_cb_ := cb;
     read_buffer_size := read_buffer_size w; expired := ex;
     open_socks := open_socks w; next_sock := next_sock w;
     accepting := accepting w; reading := reading w |}.

(** The effect of one action on the state. *)
Definition act (a : Action) (w : State) : State :=
  match a with
  | NewSocket s => set_next_sock (S s) w
  | AsyncAccept s => set_accepting (accepting w ∪ {[s]}) w
  | AcceptDone s ec =>
      let w' := set_accepting (accepting w ∖ {[s]}) w in
      if failed ec then w' else set_open_socks (open_socks w ∪ {[s]}) w'
  | Close s => set_open_socks (open_socks w ∖ {[s]}) w
  | SlotAssign s => set_socket_ (Some s) w
  | SlotReset => set_socket_ None w
  | AsyncRead s => set_reading (reading w ∪ {[s]}) w
  | ReadDone s => set_reading (reading w ∖ {[s]}) w
  | SetCallback => set_flags (acceptor_ w) true (expired w) w
  | AcceptorClose => set_flags false (receive_cb_ w) (expired w) w
  | Expire => set_flags (acceptor_ w) (receive_cb_ w) true w
  | Cancel _ | Shutdown _ | SetOption _ _ _ | Log _ _ | Deliver _ | Write _ _ _ _ => w
  end.

(** The state after a trace: the state at an instant of a run is the replay
    of the prefix of the trace up to that instant. *)
Definition replay (tr : list Action) (w : State) : State :=
  fold_left (λ w a, act a w) tr w.

(** ** The handler monad: state, trace, and a thrown system_error *)

Inductive result (A : Type) :=
| Returned (a : A)
| Threw (ec : error_code).
Arguments Returned {A} a.
Arguments Threw {A} ec.

Definition M (A : Type) : Type := State → result A * State * list Action.

#[export] Instance M_ret : MRet M := λ A a w, (Returned a, w, []).

#[export] Instance M_bind : MBind M := λ A B k m w,
  match m w with
  | (Returned a, w1, t1) =>
      match k a w1 with (r, w2, t2) => (r, w2, t1 ++ t2) end
  | (Threw ec, w1, t1) => (Threw ec, w1, t1)
  end.

Definition get : M State := λ w, (Returned w, w, []).

Definition emit (a : Action) : M unit := λ w, (Returned tt, act a w, [a]).

Definition throw {A} (ec : error_code) : M A := λ w, (Threw ec, w, []).

Definition outcome_of {A} (x : result A * State * list Action) : result A := x.1.1.
Definition state_of {A} (x : result A * State * list Action) : State := x.1.2.
Definition trace_of {A} (x : result A * State * list Action) : list Action := x.2.

(** A computation is sound when the state it ends in is the replay of its
    trace: it changes the state through its actions only. *)
Definition sound {A} (m : M A) : Prop :=
  ∀ w, state_of (m w) = replay (trace_of (m w)) w.

(** ** The member functions *)

(** [set_option(opt, ec)]: the outcome is stored in [ec], nothing is thrown. *)
Definition set_option_ec (s : sock) (o : SockOpt) (res : SockOpt → error_code) : M unit :=
  emit (SetOption s o (res o)).

(** [set_option(opt)]: the overload without an error_code throws
    boost::system::system_error when the option cannot be set. *)
Definition set_option (s : sock) (o : SockOpt) (res : SockOpt → error_code) : M unit :=
  emit (SetOption s o (res o));;
  if failed (res o) then throw (res o) else mret tt.

(** The conversion of the std::size_t that boost::asio::write returns to
    the [int wb] of line 165. *)
Definition int_of_size_t (n : N) : Z :=
  let m := Z.of_N n mod 2 ^ 32 in
  if m <? 2 ^ 31 then m else m - 2 ^ 32.

(** TcpServer::closeSocket, lines 182-188. *)
Definition closeSocket (s : sock) : M unit :=
  w ← get;
  if is_open w s then
    emit (Cancel s);; emit (Shutdown s);; emit (Close s)
  else mret tt.

(** TcpServer::doRead, lines 99-123, up to the arming of the read; the
    completion handler is [read_cb]. *)
Definition doRead (s : sock) : M unit := emit (AsyncRead s).

(** TcpServer::doAccept, lines 39-97, up to the arming of the accept; the
    completion handler is [accept_cb]. *)
Definition doAccept : M unit :=
  w ← get;
  if negb (acceptor_ w) then mret tt
  else
    let new_socket := next_sock w in
    emit (NewSocket new_socket);;
    emit (AsyncAccept new_socket).

Section Handlers.

(** The build: lines 66-67 are compiled on Linux only. *)
Variable linux : bool.

(** The lambda [accept_cb] of lines 47-94. [res] is what the system
    answers to each [set_option]. The handler object owns [new_socket];
    what becomes of a socket that the handler did not install when that
    object is destroyed is outside this definition. *)
Definition accept_cb (new_socket : sock) (ec : error_code)
    (res : SockOpt → error_code) : M unit :=
  self ← get;
  if expired self then mret tt
  else
    (if negb (failed ec) then
       (* Close old connection *)
       match socket_ self with
       | Some old =>
           if is_open self old then
             closeSocket old;;
             emit (Log INFO (NewConnectionCloseOld old))
           else mret tt
       | None => mret tt
       end;;
       (* Socket set option *)
       set_option_ec new_socket reuse_address res;;
       set_option_ec new_socket no_delay res;;
       set_option_ec new_socket keep_alive res;;
       (if linux then
          set_option new_socket tcp_quickack res;;
          set_option new_socket (so_priority 6) res
        else mret tt);;
       (* Update alive socket *)
       emit (SlotAssign new_socket);;
       emit (Log INFO (AcceptClient new_socket));;
       (* Start async read *)
       doRead new_socket
     else
       (* Close old connection *)
       match socket_ self with
       | Some old =>
           if is_open self old then
             closeSocket old;;
             emit (Log ERROR (AcceptFailCloseOld ec old))
           else mret tt
       | None => mret tt
       end;;
       emit SlotReset);;
    doAccept.

(** The lambda [read_cb] of lines 101-121: [data] holds the [n] bytes the
    completed read transferred into [read_buffer_]. *)
Definition read_cb (s : sock) (ec : error_code) (data : list byte) : M unit :=
  self ← get;
  if expired self then mret tt
  else
    if negb (failed ec) then
      (if receive_cb_ self then emit (Deliver data) else mret tt);;
      (* Continue read *)
      doRead s
    else
      if is_open self s then
        closeSocket s;;
        emit (Log INFO (CloseClient s ec))
      else mret tt.

(** TcpServer::writeClient, lines 161-172. [transferred] and [ec] are what
    the blocking boost::asio::write reports. *)
Definition writeClient (size : Z) (transferred : N) (ec : error_code) : M Z :=
  w ← get;
  match socket_ w with
  | Some s =>
      emit (Write s size transferred ec);;
      let wb := int_of_size_t transferred in
      if (wb <? 0) || failed ec then mret (-1) else mret wb
  | None => mret (-1)
  end.

(** TcpServer::setReceiveCallback, line 35. *)
Definition setReceiveCallback : M unit := emit SetCallback.

(** TcpServer::startListen, line 37. *)
Definition startListen : M unit := doAccept.

(** TcpServer::isClientConnected, lines 174-180. *)
Definition isClientConnected : M bool :=
  w ← get;
  match socket_ w with
  | Some s => mret (is_open w s)
  | None => mret false
  end.

(** TcpServer::~TcpServer, lines 20-33. It runs when the last shared_ptr
    is released, from when on [weak_self.lock()] fails. *)
Definition destructor : M unit :=
  emit Expire;;
  w ← get;
  (if acceptor_ w then emit AcceptorClose else mret tt);;
  match socket_ w with
  | Some s => closeSocket s;; emit SlotReset
  | None => mret tt
  end.

(** ** The reactor and the application *)

(** What can happen to a live endpoint: calls of the application and
    completions dispatched by the reactor thread. A completion carries what
    the reactor reports: the error_code, and for a read the bytes the
    operation transferred. Which completions the stream of a socket leads
    to is the matter of [async_read] and [read_loop] below. *)
Inductive Event :=
| SetReceiveCallback
| StartListen
| AcceptCompletes (s : sock) (ec : error_code) (res : SockOpt → error_code)
| ReadCompletes (s : sock) (ec : error_code) (data : list byte)
| WriteClient (size : Z) (transferred : N) (ec : error_code)
| IsClientConnected
| Destruct.

(** One event. A completion is dispatched only for an operation that is
    pending; member functions are called on an object that still exists. *)
Definition step (ev : Event) : M unit :=
  w ← get;
  match ev with
  | AcceptCompletes s ec res =>
      if bool_decide (s ∈ accepting w) then
        emit (AcceptDone s ec);; accept_cb s ec res
      else mret tt
  | ReadCompletes s ec data =>
      if bool_decide (s ∈ reading w) then
        emit (ReadDone s);; read_cb s ec data
      else mret tt
  | SetReceiveCallback => if expired w then mret tt else setReceiveCallback
  | StartListen => if expired w then mret tt else startListen
  | WriteClient size n ec => if expired w then mret tt else writeClient size n ec;; mret tt
  | IsClientConnected => if expired w then mret tt else isClientConnected;; mret tt
  | Destruct => if expired w then mret tt else destructor
  end.

(** A run of events; an exception that leaves a handler ends the reactor
    thread (the catch of lines 141-143), so no completion after it is
    dispatched. The run ends there: what the application still calls on the
    endpoint afterwards is not part of it. *)
Fixpoint run (evs : list Event) : M unit :=
  match evs with
  | [] => mret tt
  | ev :: evs' => step ev;; run evs'
  end.

End Handlers.

(** The endpoint right after a successful construction: listening, with an
    empty slot and a receive buffer of the given size. *)
Definition fresh (recv_buf_size : nat) : State :=
  {| acceptor_ := true; socket_ := None; receive_cb_ := false;
     read_buffer_size := recv_buf_size; expired := false;
     open_socks := ∅; next_sock := 0%nat; accepting := ∅; reading := ∅ |}.

(** How the constructor ends: with an endpoint, or with an exception. *)
Inductive constructed :=
| Constructed (w : State)
| LengthError                       (* read_buffer_(recv_buf_size), negative size *)
| BadAlloc                          (* read_buffer_(recv_buf_size), no memory *)
| ContextNull                       (* EliteException TCP_SERVER_CONTEXT_NULL, line 11 *)
| SystemError (ec : error_code).    (* boost::system::system_error, lines 15-17 *)

(** TcpServer::TcpServer, lines 9-18. The member initialiser builds
    [read_buffer_] first (the member is declared in the header; it is taken
    to be a std::vector, whose size is unsigned, so that a negative
    [recv_buf_size] is beyond its maximal size). The body throws when the
    engine has no reactor yet; the acceptor constructor of lines 15-16
    opens, sets address reuse, binds and listens, and line 17 listens with a
    backlog of 1: both throw the error the system reports. [alloc_ok],
    [bind_ec] and [listen_ec] are what the system answers. *)
Definition TcpServer (e : Engine.t) (port : Z) (recv_buf_size : Z)
    (alloc_ok : bool) (bind_ec listen_ec : error_code) : constructed :=
  if recv_buf_size <? 0 then LengthError
  else if negb alloc_ok then BadAlloc
  else
    match Engine.s_io_context_ptr_ e with
    | None => ContextNull
    | Some _ =>
        if failed bind_ec then SystemError bind_ec
        else if failed listen_ec then SystemError listen_ec
        else Constructed (fresh (Z.to_nat recv_buf_size))
    end.

(** The states an endpoint can be in. *)
Definition reachable (linux : bool) (w : State) : Prop :=
  ∃ cap evs, state_of (run linux evs (fresh cap)) = w.

(** ** One connection's Read Loop over the bytes its socket receives *)

(** How a connection ends for the reading side. *)
Inductive sock_end := eof | connection_reset | operation_aborted | bad_descriptor.

Definition errc (e : sock_end) : error_code :=
  match e with
  | eof => 2
  | connection_reset => 104
  | operation_aborted => 125
  | bad_descriptor => 9
  end.

(** boost::asio::async_read(sock, buffer(read_buffer_), handler), line 122:
    with no completion condition given it is transfer_all, which completes
    when the whole buffer of [cap] bytes is filled or when an error occurs.
    [stream] is what the socket still has to receive, [fin] how it ends (if
    it ends). The answer is the completion [(ec, data)] and the bytes left
    for later reads, or [None] while the operation stays pending. *)
Definition async_read (cap : nat) (stream : list byte) (fin : option sock_end)
  : option (error_code * list byte * list byte) :=
  if (cap <=? length stream)%nat then
    Some (0, take cap stream, drop cap stream)
  else
    match fin with
    | Some e => Some (errc e, stream, [])
    | None => None
    end.

(** The reactor driving the pending read of socket [s] to its completions,
    one after the other, while the handler keeps re-arming it. This is the
    loop of a connection that lasts until its stream ends: the read of a
    socket the endpoint itself has closed completes with operation_aborted,
    which is a [ReadCompletes] event of [step]. *)
Fixpoint read_loop (fuel : nat) (s : sock) (stream : list byte)
    (fin : option sock_end) : M unit :=
  match fuel with
  | O => mret tt
  | S fuel' =>
      w ← get;
      if bool_decide (s ∈ reading w) then
        match async_read (read_buffer_size w) stream fin with
        | Some (ec, data, rest) =>
            emit (ReadDone s);; read_cb s ec data;;
            read_loop fuel' s rest fin
        | None => mret tt
        end
      else mret tt
  end.

(** The byte strings handed to the receive callback, in delivery order. *)
Fixpoint deliveries (tr : list Action) : list (list byte) :=
  match tr with
  | [] => []
  | Deliver d :: tr' => d :: deliveries tr'
  | _ :: tr' => deliveries tr'
  end.

(** The reads armed along a trace. *)
Fixpoint armed_reads (tr : list Action) : list sock :=
  match tr with
  | [] => []
  | AsyncRead s :: tr' => s :: armed_reads tr'
  | _ :: tr' => armed_reads tr'
  end.

(** ** Instants, the slot invariant and the environments of the examples *)

(** [P] holds at every instant of the trace [tr] played from [w]: before
    its first action, between any two actions, and after the last. *)
Fixpoint always (P : State → Prop) (tr : list Action) (w : State) : Prop :=
  P w ∧ match tr with
        | [] => True
        | a :: tr' => always P tr' (act a w)
        end.

(** [P] holds at each instant at which the action [a] is about to be
    performed. *)
Fixpoint at_each (a : Action) (P : State → Prop) (tr : list Action) (w : State) : Prop :=
  match tr with
  | [] => True
  | b :: tr' => (b = a → P w) ∧ at_each a P tr' (act b w)
  end.

(** The sockets associated with the endpoint are the occupant of the slot
    and the sockets of in-flight Read Loops. At most one of them is open:
    an associated socket that is open is the occupant of the slot. *)
Definition single_open (w : State) : Prop :=
  ∀ s, s ∈ open_socks w → (s ∈ reading w ∨ socket_ w = Some s) → socket_ w = Some s.

(** What holds of an endpoint between two events. *)
Record Inv (w : State) : Prop := {
  inv_single : single_open w;
  inv_accept_read : ∀ s, s ∈ accepting w → s ∉ reading w;
  inv_accept_slot : ∀ s, s ∈ accepting w → socket_ w ≠ Some s;
  inv_accept_lt : ∀ s, s ∈ accepting w → (s < next_sock w)%nat;
  inv_read_lt : ∀ s, s ∈ reading w → (s < next_sock w)%nat;
  inv_slot_lt : ∀ s, socket_ w = Some s → (s < next_sock w)%nat;
  inv_expired : expired w = true → ∀ s, s ∈ reading w → s ∉ open_socks w;
}.

(** A socket that exists and has neither an accept nor a read pending. *)
Definition retired (w : State) (s : sock) : Prop :=
  (s ∉ reading w) ∧ (s ∉ accepting w) ∧ (s < next_sock w)%nat.

(** Two states in which the Read Loop of [s] sees the same: the endpoint,
    its callback and buffer, and the socket [s] itself. *)
Definition same_for (s : sock) (w1 w2 : State) : Prop :=
  expired w1 = expired w2 ∧ receive_cb_ w1 = receive_cb_ w2 ∧
  read_buffer_size w1 = read_buffer_size w2 ∧
  is_open w1 s = is_open w2 s ∧
  (s ∈ reading w1 ↔ s ∈ reading w2).

(** The first [k] buffer-fulls of a stream. *)
Fixpoint full_chunks (k cap : nat) (stream : list byte) : list (list byte) :=
  match k with
  | O => []
  | S k' => take cap stream :: full_chunks k' cap (drop cap stream)
  end.

(** Every [set_option] succeeds. *)
Definition all_ok : SockOpt → error_code := λ _, 0.

(** TCP_QUICKACK cannot be set (ENOPROTOOPT), the rest succeeds. *)
Definition quickack_fails : SockOpt → error_code :=
  λ o, match o with tcp_quickack => 92 | _ => 0 end.

(** SO_PRIORITY cannot be set (EPERM), the rest succeeds. *)
Definition priority_fails : SockOpt → error_code :=
  λ o, match o with so_priority _ => 1 | _ => 0 end.

(** The three options set through the error_code overload fail (EINVAL). *)
Definition ec_options_fail : SockOpt → error_code :=
  λ o, match o with reuse_address | no_delay | keep_alive => 22 | _ => 0 end.

(** ** Further notions: the engine's bookkeeping and the data of a run *)

(** The reactor an endpoint constructed now would hold: line 13 copies
    [s_io_context_ptr_] into the member [io_context_]. *)
Definition captured_context (e : Engine.t) : option nat :=
  Engine.ctx_id <$> Engine.s_io_context_ptr_ e.

(** The allocators of the engine are ahead of what the static pointers
    hold, and one FIFO request was made per thread created, in order. *)
Definition engine_ids_ok (e : Engine.t) : Prop :=
  (∀ th, Engine.s_server_thread_ e = Some th → (Engine.tid th < Engine.next_tid e)%nat) ∧
  (∀ c, Engine.s_io_context_ptr_ e = Some c → (Engine.ctx_id c < Engine.next_ctx e)%nat) ∧
  Engine.fifo_requested e = seq 0 (Engine.next_tid e).

(** The actions of the reactor itself: the marks that an operation
    completed. *)
Definition completion_mark (a : Action) : Prop :=
  match a with
  | AcceptDone _ _ | ReadDone _ => True
  | _ => False
  end.

(* ===================================================================== *)
(** * Facts about the execution engine                                   *)
(* ===================================================================== *)

Section EngineFacts.
Import Engine.

Lemma consistent_init : consistent init.
Proof. repeat split. Qed.

Lemma start_running e : running (start e) = true.
Proof. unfold running, start. destruct (s_server_thread_ e) eqn:E; simpl; [by rewrite E|done]. Qed.

Lemma start_when_running e : running e = true → start e = e.
Proof. unfold running, start. by destruct (s_server_thread_ e). Qed.

Lemma consistent_start e : consistent e → consistent (start e).
Proof.
  unfold consistent, start. destruct (s_server_thread_ e) eqn:E; simpl.
  - by rewrite E.
  - intros (Hu & _ & _). rewrite Hu. repeat split; eauto.
Qed.

(** On a running engine [stop] returns, with the thread joined and the
    three pointers null again. *)
Lemma stop_running e :
  consistent e → running e = true →
  ∃ e', stop e = Done e' ∧ consistent e' ∧ running e' = false ∧
        unjoined e' = [] ∧ next_tid e' = next_tid e.
Proof.
  unfold consistent, running, stop, release_work, stop_context.
  destruct (s_server_thread_ e) as [th|] eqn:E; [|done].
  intros (Hj & Hu & [g Hg] & [c Hc]) _. rewrite Hg. simpl. rewrite Hc. simpl.
  unfold join_thread, reset_statics. simpl. rewrite Hj. simpl.
  eexists. split; [reflexivity|]. simpl. rewrite Hu. simpl.
  assert (Hf : filter (λ x : nat, x ≠ tid th) [tid th] = [])
    by (rewrite filter_cons_False; [done | intros H; by apply H]).
  rewrite Hf. repeat split.
Qed.

Lemma stop_not_running e :
  consistent e → running e = false → stop e = NullDeref WorkGuardPtr.
Proof.
  unfold consistent, running, stop, release_work.
  destruct (s_server_thread_ e); [done|]. by intros (_ & -> & _) _.
Qed.

Lemma consistent_calls cs : ∀ e e',
  consistent e → calls cs e = Done e' → consistent e'.
Proof.
  induction cs as [|[] cs IH]; simpl; intros e e' He Hc.
  - by injection Hc as <-.
  - eapply IH; [|done]. by apply consistent_start.
  - destruct (running e) eqn:R.
    + destruct (stop_running e He R) as (e1 & Hs & He1 & _).
      rewrite Hs in Hc. simpl in Hc. by eapply IH.
    + rewrite (stop_not_running e He R) in Hc. done.
Qed.

End EngineFacts.

(** C8. [start()] is idempotent. In every state the lifecycle calls can
    reach, a second [start()] changes nothing, after the two calls exactly
    one thread exists, and a following [stop()] returns with that thread
    joined: no thread is left unjoined and the engine is not running. *)
Theorem start_twice_one_thread (cs : list Engine.call) (e : Engine.t) :
  Engine.calls cs Engine.init = Engine.Done e →
  Engine.start (Engine.start e) = Engine.start e ∧
  length (Engine.unjoined (Engine.start (Engine.start e))) = 1%nat ∧
  ∃ e', Engine.stop (Engine.start (Engine.start e)) = Engine.Done e' ∧
        Engine.unjoined e' = [] ∧ Engine.running e' = false.
Proof.
  intros Hc.
  assert (He : Engine.consistent e) by (eapply consistent_calls; [apply consistent_init|done]).
  assert (H2 : Engine.start (Engine.start e) = Engine.start e)
    by (apply start_when_running, start_running).
  rewrite H2. split; [done|].
  pose proof (consistent_start e He) as Hs.
  pose proof (start_running e) as Hr.
  split.
  - unfold Engine.consistent in Hs. unfold Engine.running in Hr.
    destruct (Engine.s_server_thread_ (Engine.start e)); [|done].
    destruct Hs as (_ & -> & _). done.
  - destruct (stop_running _ Hs Hr) as (e' & Hstop & _ & Hr' & Hu & _). eauto.
Qed.

Lemma start_twice_one_thread_witness :
  Engine.start (Engine.start Engine.init) = Engine.start Engine.init ∧
  length (Engine.unjoined (Engine.start (Engine.start Engine.init))) = 1%nat ∧
  ∃ e', Engine.stop (Engine.start (Engine.start Engine.init)) = Engine.Done e' ∧
        Engine.unjoined e' = [] ∧ Engine.running e' = false.
Proof. apply (start_twice_one_thread [] Engine.init). reflexivity. Defined.

(** C9. [stop()] on an engine that is not running (never started, or
    stopped before) dereferences the null [s_work_guard_ptr_] in its first
    statement; the reactor pointer its second statement dereferences is null
    as well. It is no safe no-op there: it returns only on a running engine. *)
Theorem stop_needs_started_engine (cs : list Engine.call) (e : Engine.t) :
  Engine.calls cs Engine.init = Engine.Done e →
  (Engine.running e = false →
     Engine.s_work_guard_ptr_ e = None ∧
     Engine.s_io_context_ptr_ e = None ∧
     Engine.release_work e = Engine.NullDeref Engine.WorkGuardPtr ∧
     Engine.stop_context e = Engine.NullDeref Engine.IoContextPtr ∧
     Engine.stop e = Engine.NullDeref Engine.WorkGuardPtr) ∧
  (Engine.running e = true → ∃ e', Engine.stop e = Engine.Done e') ∧
  Engine.stop Engine.init = Engine.NullDeref Engine.WorkGuardPtr ∧
  (∀ e', Engine.stop e = Engine.Done e' →
         Engine.stop e' = Engine.NullDeref Engine.WorkGuardPtr).
Proof.
  intros Hc.
  assert (He : Engine.consistent e) by (eapply consistent_calls; [apply consistent_init|done]).
  split; [|split; [|split]].
  - intros Hr. pose proof (stop_not_running e He Hr) as Hs.
    unfold Engine.consistent, Engine.running in *.
    destruct (Engine.s_server_thread_ e); [done|].
    destruct He as (_ & Hg & Hi).
    unfold Engine.release_work, Engine.stop_context. rewrite Hg, Hi. done.
  - intros Hr. destruct (stop_running e He Hr) as (e' & Hs & _). eauto.
  - reflexivity.
  - intros e' Hs. destruct (Engine.running e) eqn:Hr.
    + destruct (stop_running e He Hr) as (e1 & Hs1 & He1 & Hr1 & _).
      rewrite Hs in Hs1. inversion Hs1; subst. by apply stop_not_running.
    + rewrite (stop_not_running e He Hr) in Hs. done.
Qed.

Lemma stop_needs_started_engine_witness :
  Engine.stop Engine.init = Engine.NullDeref Engine.WorkGuardPtr ∧
  Engine.stop_context Engine.init = Engine.NullDeref Engine.IoContextPtr.
Proof.
  destruct (stop_needs_started_engine [] Engine.init eq_refl) as (H1 & _).
  destruct (H1 eq_refl) as (_ & _ & _ & Hc & Hs).
  split; [exact Hs | exact Hc].
Defined.

(* ===================================================================== *)
(** * Facts about the handler monad                                      *)
(* ===================================================================== *)

Lemma bind_returned {A B} (m : M A) (k : A → M B) w a w1 t1 :
  m w = (Returned a, w1, t1) →
  (m ≫= k) w = (outcome_of (k a w1), state_of (k a w1), t1 ++ trace_of (k a w1)).
Proof.
  intros H. unfold mbind, M_bind. rewrite H.
  by destruct (k a w1) as [[r w2] t2].
Qed.

Lemma bind_threw {A B} (m : M A) (k : A → M B) w ec w1 t1 :
  m w = (Threw ec, w1, t1) → (m ≫= k) w = (Threw ec, w1, t1).
Proof. intros H. unfold mbind, M_bind. by rewrite H. Qed.

(** Membership in a concrete set, by computation. *)
Lemma elem_of_by_compute (s : sock) (X : gset sock) :
  bool_decide (s ∈ X) = true → s ∈ X.
Proof. apply bool_decide_eq_true_1. Qed.

Lemma replay_app t1 t2 w : replay (t1 ++ t2) w = replay t2 (replay t1 w).
Proof. unfold replay. apply fold_left_app. Qed.

Lemma sound_ret {A} (a : A) : sound (mret a).
Proof. by intros w. Qed.

Lemma sound_get : sound get.
Proof. by intros w. Qed.

Lemma sound_emit a : sound (emit a).
Proof. by intros w. Qed.

Lemma sound_throw {A} ec : sound (@throw A ec).
Proof. by intros w. Qed.

Lemma sound_bind {A B} (m : M A) (k : A → M B) :
  sound m → (∀ a, sound (k a)) → sound (m ≫= k).
Proof.
  intros Hm Hk w. specialize (Hm w).
  destruct (m w) as [[[a|ec] w1] t1] eqn:E.
  - rewrite (bind_returned _ _ _ _ _ _ E). unfold state_of, trace_of in *. simpl in *.
    rewrite replay_app, <- Hm. apply Hk.
  - rewrite (bind_threw _ _ _ _ _ _ E). done.
Qed.

Lemma sound_if {A} (b : bool) (m1 m2 : M A) :
  sound m1 → sound m2 → sound (if b then m1 else m2).
Proof. by destruct b. Qed.

Ltac sound_tac :=
  repeat first
    [ apply sound_bind; [|intros ?]
    | apply sound_ret | apply sound_get | apply sound_emit | apply sound_throw
    | apply sound_if
    | match goal with |- sound (match ?x with _ => _ end) => destruct x end ].

Lemma sound_closeSocket s : sound (closeSocket s).
Proof. unfold closeSocket. sound_tac. Qed.

Lemma sound_doAccept : sound doAccept.
Proof. unfold doAccept. sound_tac. Qed.

Lemma sound_accept_cb linux s ec res : sound (accept_cb linux s ec res).
Proof.
  unfold accept_cb, set_option, set_option_ec, doRead.
  sound_tac; try apply sound_closeSocket; try apply sound_doAccept.
Qed.

Lemma sound_read_cb s ec data : sound (read_cb s ec data).
Proof. unfold read_cb, doRead. sound_tac; apply sound_closeSocket. Qed.

Lemma sound_step linux ev : sound (step linux ev).
Proof.
  unfold step, writeClient, isClientConnected, destructor,
    setReceiveCallback, startListen.
  apply sound_bind; [apply sound_get|intros w].
  destruct ev; sound_tac;
    first [apply sound_accept_cb | apply sound_read_cb | apply sound_doAccept
          | apply sound_closeSocket].
Qed.

Lemma sound_run linux evs : sound (run linux evs).
Proof.
  induction evs as [|ev evs IH]; simpl; [apply sound_ret|].
  apply sound_bind; [apply sound_step|done].
Qed.

Lemma always_app P t1 t2 w :
  always P (t1 ++ t2) w ↔ always P t1 w ∧ always P t2 (replay t1 w).
Proof.
  revert w. induction t1 as [|a t1 IH]; intros w; simpl.
  - destruct t2; simpl; tauto.
  - rewrite IH. tauto.
Qed.

Lemma always_here P tr w : always P tr w → P w.
Proof. destruct tr; simpl; tauto. Qed.

(** [always] is about every prefix of the trace. *)
Lemma always_prefix P tr w pre post :
  always P tr w → tr = pre ++ post → P (replay pre w).
Proof.
  intros H ->. apply always_app in H as [_ H]. by apply always_here in H.
Qed.

(* ===================================================================== *)
(** * The slot invariant                                                 *)
(* ===================================================================== *)

Ltac unfold_handlers :=
  unfold step, accept_cb, read_cb, destructor, writeClient, isClientConnected,
    setReceiveCallback, startListen,
    closeSocket, doRead, doAccept, set_option, set_option_ec,
    mbind, mret, M_bind, M_ret, get, emit, throw,
    state_of, trace_of, outcome_of, is_open in *.

(** Case analysis on every test a handler makes, in program order. *)
Ltac split_tests :=
  repeat (simpl in *;
          match goal with
          | |- context [match socket_ ?w with _ => _ end] =>
              destruct (socket_ w) eqn:?
          | |- context [if ?c then _ else _] => destruct c eqn:?
          end);
  simpl in *;
  repeat match goal with
    | H : bool_decide _ = true |- _ => apply bool_decide_eq_true in H
    | H : bool_decide _ = false |- _ => apply bool_decide_eq_false in H
    end.

Lemma fresh_inv cap : Inv (fresh cap).
Proof. split; simpl; unfold single_open; set_solver. Qed.

(** Goals [∀ s, s ∈ X → s < n] and [∀ s, slot = Some s → s < n]. *)
Ltac lt_goal w :=
  let x := fresh "x" in
  let Hx := fresh "Hx" in
  intros x Hx; simpl in *; set_unfold in Hx;
  repeat match goal with
    | H : _ ∨ _ |- _ => destruct H
    | H : _ ∧ _ |- _ => destruct H
    | H : Some _ = Some _ |- _ => injection H as H
    end;
  subst;
  first [ lia
        | assert (x < next_sock w)%nat by eauto; lia
        | match goal with
          | H : socket_ w = Some ?s |- _ => assert (s < next_sock w)%nat by eauto; lia
          end
        | match goal with
          | H : ?s ∈ accepting w |- _ => assert (s < next_sock w)%nat by eauto; lia
          end ].

(** The slot invariant is preserved by every event, and [single_open]
    holds at every instant of the handler. The proof visits every path of
    the handlers. *)
Lemma step_inv linux ev w :
  Inv w →
  Inv (state_of (step linux ev w)) ∧
  always single_open (trace_of (step linux ev w)) w.
Proof.
  intros [I1 I2 I3 I4 I5 I6 I7]. unfold single_open in *.
  destruct ev; unfold_handlers; split_tests.
  all: split;
    [ split; simpl; unfold single_open;
      [ try done; clear I3 I4 I5 I6 I7
      | try done; clear I1 I3 I6 I7
      | try done; clear I1 I2 I5 I7
      | try done; try lt_goal w
      | try done; try lt_goal w
      | try done; try lt_goal w
      | try done; try (intros ?; congruence); clear I3 I4 I5 I6 ]
    | repeat split; try done; clear I3 I4 I5 I6 I7 ].
  all: set_solver by lia.
Qed.

Lemma run_cons linux ev evs w :
  run linux (ev :: evs) w =
  match step linux ev w with
  | (Returned _, w1, t1) =>
      (outcome_of (run linux evs w1), state_of (run linux evs w1),
       t1 ++ trace_of (run linux evs w1))
  | (Threw ec, w1, t1) => (Threw ec, w1, t1)
  end.
Proof.
  simpl. destruct (step linux ev w) as [[[u|ec] w1] t1] eqn:E.
  - by rewrite (bind_returned _ _ _ _ _ _ E).
  - by rewrite (bind_threw _ _ _ _ _ _ E).
Qed.

(** Along every run from a state that satisfies the invariant, the
    invariant holds after the run and [single_open] at every instant. *)
Lemma run_inv linux evs : ∀ w,
  Inv w →
  Inv (state_of (run linux evs w)) ∧
  always single_open (trace_of (run linux evs w)) w.
Proof.
  induction evs as [|ev evs IH]; intros w Hw.
  - simpl. split; [done|]. split; [apply Hw|done].
  - rewrite run_cons.
    destruct (step_inv linux ev w Hw) as [Hi Ha].
    pose proof (sound_step linux ev w) as Hs.
    destruct (step linux ev w) as [[[u|ec] w1] t1]; unfold state_of, trace_of in *; simpl in *.
    + destruct (IH w1 Hi) as [Hi' Ha']. split; [done|].
      apply always_app. split; [done|]. by rewrite <- Hs.
    + done.
Qed.

Lemma reachable_inv linux w : reachable linux w → Inv w.
Proof. intros (cap & evs & <-). apply run_inv, fresh_inv. Qed.

(* ===================================================================== *)
(** * Sockets whose Read Loop has ended                                  *)
(* ===================================================================== *)

Lemma armed_reads_app t1 t2 : armed_reads (t1 ++ t2) = armed_reads t1 ++ armed_reads t2.
Proof.
  induction t1 as [|a t1 IH]; [done|]. destruct a; simpl; by rewrite ?IH.
Qed.

(** A retired socket stays retired, and no event arms a read on it. *)
Lemma step_retired linux ev w s :
  retired w s →
  retired (state_of (step linux ev w)) s ∧
  s ∉ armed_reads (trace_of (step linux ev w)).
Proof.
  intros (Hr & Ha & Hn). unfold retired.
  destruct ev; unfold_handlers; split_tests.
  all: repeat split; simpl; try done; try lia; set_solver by lia.
Qed.

Lemma run_retired linux evs : ∀ w s,
  retired w s →
  retired (state_of (run linux evs w)) s ∧
  s ∉ armed_reads (trace_of (run linux evs w)).
Proof.
  induction evs as [|ev evs IH]; intros w s Hr.
  - simpl. split; [done|]. set_solver.
  - rewrite run_cons. destruct (step_retired linux ev w s Hr) as [Hr1 Ht1].
    destruct (step linux ev w) as [[[u|ec] w1] t1]; unfold state_of, trace_of in *; simpl in *.
    + destruct (IH w1 s Hr1) as [Hr2 Ht2]. split; [done|].
      rewrite armed_reads_app. set_solver.
    + done.
Qed.

(* ===================================================================== *)
(** * The Read Loop of one socket next to a failing one                  *)
(* ===================================================================== *)

(** One completion of the read of [s] does the same in two states that
    are the same for [s], and leaves them the same for [s]. *)
Lemma read_completion_same s ec data w1 w2 :
  same_for s w1 w2 →
  let m := emit (ReadDone s) ≫= λ _, read_cb s ec data in
  outcome_of (m w1) = Returned tt ∧ outcome_of (m w2) = Returned tt ∧
  trace_of (m w1) = trace_of (m w2) ∧
  same_for s (state_of (m w1)) (state_of (m w2)).
Proof.
  intros (He & Hc & Hb & Ho & Hr). unfold same_for. unfold_handlers. simpl.
  rewrite He, Hc, Ho.
  split_tests.
  all: repeat split; simpl; try done; try congruence.
  all: lazymatch goal with
       | |- _ ∈ _ → _ ∈ _ => clear -Hr; set_solver
       | |- bool_decide _ = bool_decide _ =>
           apply bool_decide_ext; first [tauto | clear; set_solver]
       end.
Qed.

(** One turn of the Read Loop. *)
Lemma read_loop_S fuel s stream fin w :
  read_loop (S fuel) s stream fin w =
  if bool_decide (s ∈ reading w) then
    match async_read (read_buffer_size w) stream fin with
    | Some (ec, data, rest) =>
        ((emit (ReadDone s) ≫= λ _, read_cb s ec data) ≫= λ _,
         read_loop fuel s rest fin) w
    | None => (Returned tt, w, [])
    end
  else (Returned tt, w, []).
Proof.
  simpl. unfold mbind at 1, M_bind at 1, get. simpl.
  destruct (bool_decide (s ∈ reading w)); [|done].
  destruct (async_read (read_buffer_size w) stream fin) as [[[ec data] rest]|]; [|done].
  unfold mbind, M_bind, emit. simpl.
  destruct (read_cb s ec data _) as [[[u|e] w'] t']; simpl; [|done].
  by destruct (read_loop fuel s rest fin w') as [[r w''] t''].
Qed.

Lemma read_loop_same s fuel : ∀ stream fin w1 w2,
  same_for s w1 w2 →
  trace_of (read_loop fuel s stream fin w1) = trace_of (read_loop fuel s stream fin w2).
Proof.
  induction fuel as [|fuel IH]; intros stream fin w1 w2 Hs; [done|].
  pose proof Hs as (He & Hc & Hb & Ho & Hr).
  rewrite !read_loop_S, (bool_decide_ext _ _ Hr), Hb.
  destruct (bool_decide (s ∈ reading w2)); [|done].
  destruct (async_read (read_buffer_size w2) stream fin) as [[[ec data] rest]|]; [|done].
  destruct (read_completion_same s ec data w1 w2 Hs) as (O1 & O2 & Ht & Hs').
  set (m := emit (ReadDone s) ≫= λ _, read_cb s ec data) in *.
  destruct (m w1) as [[r1 w1'] t1] eqn:E1. destruct (m w2) as [[r2 w2'] t2] eqn:E2.
  unfold outcome_of, trace_of, state_of in *. simpl in *. subst.
  rewrite (bind_returned _ _ _ _ _ _ E1), (bind_returned _ _ _ _ _ _ E2).
  unfold trace_of. simpl. f_equal. by apply IH.
Qed.

(** C7. A read failure completing on a socket [s] that is no longer the
    occupant [s'] of the slot leaves the occupant installed, leaves its
    open/closed state and its pending read as they were, touches only [s],
    and the occupant's Read Loop runs after it exactly as it would have run
    without it. *)
Theorem stale_read_failure_frame (linux : bool) (w : State) (s s' : sock)
    (ec : error_code) (data : list byte) :
  socket_ w = Some s' → s ≠ s' → s ∈ reading w → failed ec = true →
  let x := step linux (ReadCompletes s ec data) w in
  outcome_of x = Returned tt ∧
  socket_ (state_of x) = Some s' ∧
  is_open (state_of x) s' = is_open w s' ∧
  (s' ∈ reading (state_of x) ↔ s' ∈ reading w) ∧
  accepting (state_of x) = accepting w ∧
  Forall (λ a, a ∈ [ReadDone s; Cancel s; Shutdown s; Close s; Log INFO (CloseClient s ec)])
         (trace_of x) ∧
  ∀ fuel stream fin,
    trace_of (read_loop fuel s' stream fin (state_of x)) =
    trace_of (read_loop fuel s' stream fin w).
Proof.
  intros Hslot Hne Hrd Hf x.
  assert (Hmain : outcome_of x = Returned tt ∧ socket_ (state_of x) = Some s' ∧
            is_open (state_of x) s' = is_open w s' ∧
            (s' ∈ reading (state_of x) ↔ s' ∈ reading w) ∧
            accepting (state_of x) = accepting w ∧
            Forall (λ a, a ∈ [ReadDone s; Cancel s; Shutdown s; Close s; Log INFO (CloseClient s ec)])
                   (trace_of x) ∧
            same_for s' (state_of x) w).
  { subst x. unfold same_for. unfold_handlers. simpl.
    rewrite (bool_decide_eq_true_2 _ Hrd), Hf.
    split_tests; repeat split; simpl; try done.
    all: lazymatch goal with
         | |- _ ∈ _ → _ ∈ _ => clear -Hne; set_solver
         | |- bool_decide _ = bool_decide _ =>
             apply bool_decide_ext; clear -Hne; set_solver
         | |- Forall _ _ => clear; repeat constructor; set_solver
         end. }
  destruct Hmain as (H1 & H2 & H3 & H4 & H5 & H6 & H7).
  repeat split; try done; try apply H4.
  intros fuel stream fin. by apply read_loop_same.
Qed.

Lemma stale_read_failure_frame_witness :
  let w := state_of (run true [StartListen; AcceptCompletes 0%nat 0 all_ok;
                               AcceptCompletes 1%nat 0 all_ok] (fresh 4)) in
  let x := step true (ReadCompletes 0%nat 125 []) w in
  outcome_of x = Returned tt ∧
  socket_ (state_of x) = Some 1%nat ∧
  is_open (state_of x) 1%nat = is_open w 1%nat ∧
  (1%nat ∈ reading (state_of x) ↔ 1%nat ∈ reading w) ∧
  accepting (state_of x) = accepting w ∧
  Forall (λ a, a ∈ [ReadDone 0%nat; Cancel 0%nat; Shutdown 0%nat; Close 0%nat;
                    Log INFO (CloseClient 0%nat 125)]) (trace_of x) ∧
  ∀ fuel stream fin,
    trace_of (read_loop fuel 1%nat stream fin (state_of x)) =
    trace_of (read_loop fuel 1%nat stream fin w).
Proof.
  apply (stale_read_failure_frame true
           (state_of (run true [StartListen; AcceptCompletes 0%nat 0 all_ok;
                                AcceptCompletes 1%nat 0 all_ok] (fresh 4)))
           0%nat 1%nat 125 []).
  - reflexivity.
  - lia.
  - apply elem_of_by_compute. vm_compute. reflexivity.
  - reflexivity.
Defined.

(* ===================================================================== *)
(** * Read failures                                                      *)
(* ===================================================================== *)

(** C5. When the read of a socket completes with a failure: a socket that
    is still open is closed (cancel, shutdown, close) and the INFO event is
    logged; one that is closed already is left alone; either way no read is
    armed for it, neither by this handler nor by anything that happens to
    the endpoint later. *)
Theorem read_failure_ends_loop (linux : bool) (w : State) (s : sock)
    (ec : error_code) (data : list byte) :
  reachable linux w → s ∈ reading w → failed ec = true →
  let x := step linux (ReadCompletes s ec data) w in
  outcome_of x = Returned tt ∧
  trace_of x =
    (if is_open w s
     then [ReadDone s; Cancel s; Shutdown s; Close s; Log INFO (CloseClient s ec)]
     else [ReadDone s]) ∧
  is_open (state_of x) s = false ∧
  (s ∉ reading (state_of x)) ∧
  ∀ evs, (s ∉ armed_reads (trace_of (run linux evs (state_of x)))) ∧
         (s ∉ reading (state_of (run linux evs (state_of x)))).
Proof.
  intros Hreach Hrd Hf x.
  destruct (reachable_inv linux w Hreach) as [_ I2 _ _ I5 _ I7].
  assert (Hacc : s ∉ accepting w) by (intros Ha; by apply (I2 s Ha)).
  pose proof (I5 s Hrd) as Hlt.
  assert (Hmain : outcome_of x = Returned tt ∧
            trace_of x =
              (if is_open w s
               then [ReadDone s; Cancel s; Shutdown s; Close s; Log INFO (CloseClient s ec)]
               else [ReadDone s]) ∧
            is_open (state_of x) s = false ∧ retired (state_of x) s).
  { subst x. unfold retired. unfold_handlers. simpl.
    rewrite (bool_decide_eq_true_2 _ Hrd), Hf.
    destruct (expired w) eqn:He; simpl.
    - assert (Hcl : s ∉ open_socks w) by (by apply I7).
      rewrite (bool_decide_eq_false_2 _ Hcl).
      repeat split; try done. clear; set_solver.
    - destruct (bool_decide (s ∈ open_socks w)) eqn:Ho; simpl; rewrite ?Ho; simpl.
      + repeat split; try done.
        * apply bool_decide_eq_false_2. clear; set_solver.
        * clear; set_solver.
      + repeat split; try done. clear; set_solver. }
  destruct Hmain as (H1 & H2 & H3 & Hret).
  repeat split; try done; try apply Hret.
  - by apply run_retired.
  - by apply run_retired.
Qed.

Lemma read_failure_ends_loop_witness :
  let w := state_of (run true [StartListen; AcceptCompletes 0%nat 0 all_ok] (fresh 4)) in
  let x := step true (ReadCompletes 0%nat 2 []) w in
  outcome_of x = Returned tt ∧
  trace_of x =
    (if is_open w 0%nat
     then [ReadDone 0%nat; Cancel 0%nat; Shutdown 0%nat; Close 0%nat;
           Log INFO (CloseClient 0%nat 2)]
     else [ReadDone 0%nat]) ∧
  is_open (state_of x) 0%nat = false ∧
  (0%nat ∉ reading (state_of x)) ∧
  ∀ evs, (0%nat ∉ armed_reads (trace_of (run true evs (state_of x)))) ∧
         (0%nat ∉ reading (state_of (run true evs (state_of x)))).
Proof.
  apply (read_failure_ends_loop true
           (state_of (run true [StartListen; AcceptCompletes 0%nat 0 all_ok] (fresh 4)))
           0%nat 2 []).
  - exists 4%nat, [StartListen; AcceptCompletes 0%nat 0 all_ok]. reflexivity.
  - apply elem_of_by_compute. vm_compute. reflexivity.
  - reflexivity.
Defined.

(* ===================================================================== *)
(** * writeClient                                                        *)
(* ===================================================================== *)

(** [int_of_size_t] is the conversion to a 32-bit int: the int congruent
    to the count, which is the count itself when it fits. *)
Lemma int_of_size_t_range n :
  - 2 ^ 31 ≤ int_of_size_t n < 2 ^ 31 ∧
  int_of_size_t n mod 2 ^ 32 = Z.of_N n mod 2 ^ 32.
Proof.
  unfold int_of_size_t.
  pose proof (Z.mod_pos_bound (Z.of_N n) (2 ^ 32) ltac:(lia)) as Hm.
  destruct (Z.of_N n mod 2 ^ 32 <? 2 ^ 31) eqn:E.
  - apply Z.ltb_lt in E. split; [lia|]. by rewrite Z.mod_mod by lia.
  - apply Z.ltb_ge in E. split; [lia|].
    replace (Z.of_N n mod 2 ^ 32 - 2 ^ 32)
      with (Z.of_N n mod 2 ^ 32 + (-1) * 2 ^ 32) by lia.
    rewrite Z.mod_add by lia. by rewrite Z.mod_mod by lia.
Qed.

Lemma int_of_size_t_small n : Z.of_N n < 2 ^ 31 → int_of_size_t n = Z.of_N n.
Proof.
  intros H. unfold int_of_size_t.
  rewrite Z.mod_small by lia.
  destruct (Z.of_N n <? 2 ^ 31) eqn:E; [done|]. apply Z.ltb_ge in E. lia.
Qed.

(** C4. [writeClient(data, size)], with [transferred] and [ec] what the
    blocking write reports and [wb] the count as the int of line 165: with
    an empty slot it returns -1 and performs no I/O; with an occupied slot
    it performs the one write and returns the number of bytes written, or -1
    when that count is negative or an error occurred. The endpoint is left
    as it was. *)
Theorem writeClient_result (w : State) (size : Z) (transferred : N) (ec : error_code) :
  let x := writeClient size transferred ec w in
  let wb := int_of_size_t transferred in
  state_of x = w ∧
  (- 2 ^ 31 ≤ wb < 2 ^ 31 ∧ wb mod 2 ^ 32 = Z.of_N transferred mod 2 ^ 32) ∧
  match socket_ w with
  | None => outcome_of x = Returned (-1) ∧ trace_of x = []
  | Some s =>
      trace_of x = [Write s size transferred ec] ∧
      outcome_of x = Returned (if (wb <? 0) || failed ec then -1 else wb)
  end.
Proof.
  intros x wb. split; [|split; [apply int_of_size_t_range|]].
  - subst x. unfold writeClient, mbind, M_bind, mret, M_ret, get, emit, state_of.
    simpl. destruct (socket_ w); simpl; [|done].
    by destruct ((int_of_size_t transferred <? 0) || failed ec).
  - subst x. unfold writeClient, mbind, M_bind, mret, M_ret, get, emit,
      trace_of, outcome_of. simpl.
    destruct (socket_ w) as [s|]; simpl; [|done]. fold wb.
    by destruct ((wb <? 0) || failed ec).
Qed.

(** A write of at most [size] bytes that succeeds returns its count. *)
Lemma writeClient_count w s size transferred :
  socket_ w = Some s → size < 2 ^ 31 → Z.of_N transferred ≤ size →
  outcome_of (writeClient size transferred 0 w) = Returned (Z.of_N transferred).
Proof.
  intros Hs Hsz Ht.
  unfold writeClient, mbind, M_bind, mret, M_ret, get, emit, outcome_of.
  simpl. rewrite Hs. simpl.
  rewrite int_of_size_t_small by lia.
  replace (Z.of_N transferred <? 0) with false; [done|].
  symmetry. apply Z.ltb_ge. lia.
Qed.

(* ===================================================================== *)
(** * What the Read Loop delivers                                        *)
(* ===================================================================== *)

Lemma deliveries_app t1 t2 : deliveries (t1 ++ t2) = deliveries t1 ++ deliveries t2.
Proof.
  induction t1 as [|a t1 IH]; [done|]. destruct a; simpl; by rewrite ?IH.
Qed.

(** One completion of the read of [s]: what it delivers and what it leaves. *)
Lemma read_completion_effect s ec data w :
  let m := emit (ReadDone s) ≫= λ _, read_cb s ec data in
  outcome_of (m w) = Returned tt ∧
  expired (state_of (m w)) = expired w ∧
  receive_cb_ (state_of (m w)) = receive_cb_ w ∧
  read_buffer_size (state_of (m w)) = read_buffer_size w ∧
  deliveries (trace_of (m w)) =
    (if negb (expired w) && negb (failed ec) && receive_cb_ w then [data] else []) ∧
  (s ∈ reading (state_of (m w)) ↔ expired w = false ∧ failed ec = false).
Proof.
  unfold_handlers. simpl.
  destruct (expired w) eqn:He; simpl.
  { repeat split; try done; try (by intros [? _]); exfalso; set_solver. }
  destruct (failed ec) eqn:Hf; simpl.
  - destruct (bool_decide (s ∈ open_socks w)) eqn:Ho; simpl; rewrite ?Ho; simpl.
    all: repeat split; try done; try (by intros [_ ?]); exfalso; set_solver.
  - destruct (receive_cb_ w) eqn:Hc; simpl.
    all: repeat split; try done; clear; set_solver.
Qed.

Lemma read_loop_not_reading fuel s stream fin w :
  s ∉ reading w → read_loop fuel s stream fin w = (Returned tt, w, []).
Proof.
  intros H. destruct fuel; [done|].
  by rewrite read_loop_S, (bool_decide_eq_false_2 _ H).
Qed.

(** One turn of the loop that leads to a completion. *)
Lemma read_loop_turn fuel s stream fin w ec data rest :
  s ∈ reading w →
  async_read (read_buffer_size w) stream fin = Some (ec, data, rest) →
  let m := emit (ReadDone s) ≫= λ _, read_cb s ec data in
  trace_of (read_loop (S fuel) s stream fin w) =
  trace_of (m w) ++ trace_of (read_loop fuel s rest fin (state_of (m w))).
Proof.
  intros Hr Ha m. rewrite read_loop_S, (bool_decide_eq_true_2 _ Hr), Ha.
  destruct (read_completion_effect s ec data w) as (Ho & _).
  fold m in Ho |- *.
  destruct (m w) as [[r w'] t] eqn:E. unfold outcome_of in Ho. simpl in Ho. subst r.
  by rewrite (bind_returned _ _ _ _ _ _ E).
Qed.

Lemma full_chunks_length k cap stream :
  (k * cap ≤ length stream)%nat →
  Forall (λ d, length d = cap) (full_chunks k cap stream).
Proof.
  revert stream. induction k as [|k IH]; intros stream H; simpl; constructor.
  - rewrite length_take. simpl in H. lia.
  - apply IH. rewrite length_drop. simpl in H. lia.
Qed.

Lemma full_chunks_concat k cap stream :
  concat (full_chunks k cap stream) = take (k * cap) stream.
Proof.
  revert stream. induction k as [|k IH]; intros stream; simpl; [done|].
  by rewrite IH, take_take_drop.
Qed.

(** Whatever the fuel: the deliveries are some number of whole buffers
    from the front of the stream. *)
Lemma read_loop_delivers_chunks s fuel : ∀ stream fin w,
  ∃ k, deliveries (trace_of (read_loop fuel s stream fin w)) =
         full_chunks k (read_buffer_size w) stream ∧
       (k * read_buffer_size w ≤ length stream)%nat.
Proof.
  induction fuel as [|fuel IH]; intros stream fin w.
  { exists 0%nat. split; [done|]. simpl. lia. }
  destruct (decide (s ∈ reading w)) as [Hr|Hr];
    [|exists 0%nat; rewrite read_loop_not_reading by done; split; [done | simpl; lia]].
  destruct (async_read (read_buffer_size w) stream fin) as [[[ec data] rest]|] eqn:Ha;
    [|exists 0%nat; rewrite read_loop_S, (bool_decide_eq_true_2 _ Hr), Ha;
      split; [done | simpl; lia]].
  rewrite (read_loop_turn _ _ _ _ _ _ _ _ Hr Ha), deliveries_app.
  destruct (read_completion_effect s ec data w) as (_ & He & Hc & Hb & Hd & Hrd).
  set (m := emit (ReadDone s) ≫= λ _, read_cb s ec data) in *.
  rewrite Hd. unfold async_read in Ha.
  destruct (read_buffer_size w <=? length stream)%nat eqn:Hle.
  - apply Nat.leb_le in Hle. injection Ha as <- <- <-.
    destruct (IH (drop (read_buffer_size w) stream) fin (state_of (m w))) as (k & Hk & Hlen).
    rewrite Hb in Hk, Hlen. rewrite length_drop in Hlen.
    replace (failed 0) with false by done.
    destruct (negb (expired w) && negb false && receive_cb_ w) eqn:Hdel.
    + exists (S k). simpl. rewrite Hk. split; [done | lia].
    + (* nothing is delivered now, and nothing later either *)
      exists 0%nat. simpl. split; [|lia].
      assert (Hnone : expired w = true ∨ receive_cb_ w = false).
      { destruct (expired w), (receive_cb_ w); simpl in Hdel; auto; discriminate. }
      clear Hk Hlen k.
      assert (Hno : ∀ f st', deliveries (trace_of (read_loop f s st' fin (state_of (m w)))) = []).
      { generalize (state_of (m w)), He, Hc. clear -Hnone.
        intros w' He Hc f. revert w' He Hc.
        induction f as [|f IHf]; intros w' He Hc st'; [done|].
        destruct (decide (s ∈ reading w')) as [Hr|Hr];
          [|by rewrite read_loop_not_reading].
        destruct (async_read (read_buffer_size w') st' fin) as [[[ec data] rest]|] eqn:Ha;
          [|by rewrite read_loop_S, (bool_decide_eq_true_2 _ Hr), Ha].
        rewrite (read_loop_turn _ _ _ _ _ _ _ _ Hr Ha), deliveries_app.
        destruct (read_completion_effect s ec data w') as (_ & He' & Hc' & _ & Hd' & _).
        rewrite Hd', IHf by congruence.
        rewrite He, Hc.
        destruct Hnone as [-> | ->]; simpl; [done|]. by rewrite !andb_false_r. }
      apply Hno.
  - destruct fin as [e|]; [|done]. injection Ha as <- <- <-.
    assert (Hf : failed (errc e) = true) by (by destruct e).
    rewrite Hf, andb_false_r. simpl.
    rewrite read_loop_not_reading.
    + exists 0%nat. split; [done | simpl; lia].
    + rewrite Hrd, Hf. by intros [_ ?].
Qed.

(** With enough fuel for the stream: the deliveries are all the whole
    buffers the stream holds. *)
Lemma read_loop_delivers_all s fuel : ∀ stream fin w,
  receive_cb_ w = true → expired w = false → s ∈ reading w →
  (0 < read_buffer_size w)%nat → (length stream < fuel)%nat →
  deliveries (trace_of (read_loop fuel s stream fin w)) =
  full_chunks (length stream / read_buffer_size w) (read_buffer_size w) stream.
Proof.
  induction fuel as [|fuel IH]; intros stream fin w Hc He Hr Hcap Hfuel; [lia|].
  destruct (async_read (read_buffer_size w) stream fin) as [[[ec data] rest]|] eqn:Ha.
  - rewrite (read_loop_turn _ _ _ _ _ _ _ _ Hr Ha), deliveries_app.
    destruct (read_completion_effect s ec data w) as (_ & He' & Hc' & Hb & Hd & Hrd).
    set (m := emit (ReadDone s) ≫= λ _, read_cb s ec data) in *.
    rewrite Hd, He, Hc. unfold async_read in Ha.
    destruct (read_buffer_size w <=? length stream)%nat eqn:Hle.
    + apply Nat.leb_le in Hle. injection Ha as <- <- <-.
      replace (failed 0) with false in * by done. simpl.
      rewrite IH; rewrite ?Hb, ?length_drop; try congruence; try lia.
      * replace (length stream / read_buffer_size w)%nat
          with (S ((length stream - read_buffer_size w) / read_buffer_size w)); [done|].
        replace (length stream) with
          (1 * read_buffer_size w + (length stream - read_buffer_size w))%nat at 2 by lia.
        rewrite Nat.div_add_l by lia. lia.
      * apply Hrd. done.
    + apply Nat.leb_gt in Hle. destruct fin as [e|]; [|done]. injection Ha as <- <- <-.
      assert (Hf : failed (errc e) = true) by (by destruct e).
      rewrite Hf. simpl. rewrite Nat.div_small by lia. simpl.
      rewrite read_loop_not_reading; [done|].
      rewrite Hrd, Hf. by intros [_ ?].
  - rewrite read_loop_S, (bool_decide_eq_true_2 _ Hr), Ha. simpl.
    unfold async_read in Ha.
    destruct (read_buffer_size w <=? length stream)%nat eqn:Hle; [done|].
    apply Nat.leb_gt in Hle. by rewrite Nat.div_small by lia.
Qed.

(** C10. Every byte string the Read Loop hands to the receive callback
    has exactly the length of the receive buffer: the deliveries are whole
    buffers from the front of the stream, and the bytes of a last, partial
    buffer are never delivered, whether the connection then fails, is closed
    by the peer, or stays idle. *)
Theorem delivery_is_full_buffer (fuel : nat) (s : sock) (stream : list byte)
    (fin : option sock_end) (w : State) :
  let tr := trace_of (read_loop fuel s stream fin w) in
  let cap := read_buffer_size w in
  Forall (λ d, length d = cap) (deliveries tr) ∧
  (∃ k, deliveries tr = full_chunks k cap stream ∧ (k * cap ≤ length stream)%nat) ∧
  (length (concat (deliveries tr)) ≤ cap * (length stream / cap))%nat.
Proof.
  intros tr cap.
  destruct (read_loop_delivers_chunks s fuel stream fin w) as (k & Hk & Hlen).
  fold tr cap in Hk, Hlen. rewrite Hk.
  split; [by apply full_chunks_length|]. split; [by exists k|].
  rewrite full_chunks_concat, length_take.
  destruct (decide (cap = 0%nat)) as [->|Hcap]; [lia|].
  assert (k ≤ length stream / cap)%nat by (apply Nat.div_le_lower_bound; lia).
  nia.
Qed.

(** With a buffer of size zero every turn delivers the empty string. *)
Lemma read_loop_zero_capacity s fuel : ∀ stream fin w,
  read_buffer_size w = 0%nat →
  concat (deliveries (trace_of (read_loop fuel s stream fin w))) = [].
Proof.
  induction fuel as [|fuel IH]; intros stream fin w Hb; [done|].
  destruct (decide (s ∈ reading w)) as [Hr|Hr];
    [|by rewrite read_loop_not_reading].
  assert (Ha : async_read (read_buffer_size w) stream fin = Some (0, [], stream))
    by (by rewrite Hb).
  rewrite (read_loop_turn _ _ _ _ _ _ _ _ Hr Ha), deliveries_app, concat_app.
  destruct (read_completion_effect s 0 [] w) as (_ & _ & _ & Hb' & Hd & _).
  rewrite Hd, IH by congruence.
  by destruct (negb (expired w) && negb (failed 0) && receive_cb_ w).
Qed.

(** C2, as the code has it. On one live connection (its socket is open
    and occupies the slot) with a callback registered, the delivered byte
    strings, concatenated in delivery order, are the longest prefix of the
    bytes the peer sent whose length is a multiple of the buffer capacity,
    however the peer chunked its writes: nothing is reordered, and what is
    left out is the trailing partial buffer. *)
Theorem delivered_bytes_are_whole_buffer_prefix (fuel : nat) (s : sock)
    (writes : list (list byte)) (fin : option sock_end) (w : State) :
  receive_cb_ w = true → expired w = false →
  socket_ w = Some s → is_open w s = true → s ∈ reading w →
  (length (concat writes) < fuel)%nat →
  let sent := concat writes in
  let cap := read_buffer_size w in
  concat (deliveries (trace_of (read_loop fuel s sent fin w))) =
  take (cap * (length sent / cap)) sent.
Proof.
  intros Hc He _ _ Hr Hfuel sent cap.
  destruct (decide (cap = 0%nat)) as [Hz|Hnz].
  - rewrite Hz. simpl. by apply read_loop_zero_capacity.
  - assert (Hcap : (0 < read_buffer_size w)%nat) by (fold cap; lia).
    rewrite (read_loop_delivers_all s fuel sent fin w Hc He Hr Hcap Hfuel).
    rewrite full_chunks_concat. f_equal. fold cap. lia.
Qed.

Lemma delivered_bytes_are_whole_buffer_prefix_witness :
  let w := state_of (run true [SetReceiveCallback; StartListen;
                               AcceptCompletes 0%nat 0 all_ok] (fresh 2)) in
  let sent := concat [[x01]; [x02; x03; x04]; [x05]] in
  concat (deliveries (trace_of (read_loop 6 0%nat sent (Some eof) w))) =
  take (2 * (length sent / 2)) sent.
Proof.
  apply (delivered_bytes_are_whole_buffer_prefix 6 0%nat
           [[x01]; [x02; x03; x04]; [x05]] (Some eof)
           (state_of (run true [SetReceiveCallback; StartListen;
                                AcceptCompletes 0%nat 0 all_ok] (fresh 2)))).
  - reflexivity.
  - reflexivity.
  - reflexivity.
  - vm_compute. reflexivity.
  - apply elem_of_by_compute. vm_compute. reflexivity.
  - vm_compute. lia.
Defined.

(** C2 as stated fails: with a buffer of 4 bytes, a peer that sends 3 bytes
    and closes has none of them delivered. *)
Lemma partial_buffer_is_dropped :
  let w := state_of (run true [SetReceiveCallback; StartListen;
                               AcceptCompletes 0%nat 0 all_ok] (fresh 4)) in
  let sent := concat [[x01; x02]; [x03]] in
  receive_cb_ w = true ∧ expired w = false ∧ is_open w 0%nat = true ∧
  socket_ w = Some 0%nat ∧
  deliveries (trace_of (read_loop 8 0%nat sent (Some eof) w)) = [] ∧
  concat (deliveries (trace_of (read_loop 8 0%nat sent (Some eof) w))) ≠ sent.
Proof.
  vm_compute. repeat split; try reflexivity. discriminate.
Qed.

(* ===================================================================== *)
(** * The accept handler                                                 *)
(* ===================================================================== *)

(** The answers to the three options set through the error_code overload
    (lines 62-64) change neither how the handler ends nor the state. *)
Lemma ec_option_failures_ignored linux w s ec res res' :
  res' tcp_quickack = res tcp_quickack →
  res' (so_priority 6) = res (so_priority 6) →
  outcome_of (step linux (AcceptCompletes s ec res') w) =
    outcome_of (step linux (AcceptCompletes s ec res) w) ∧
  state_of (step linux (AcceptCompletes s ec res') w) =
    state_of (step linux (AcceptCompletes s ec res) w).
Proof.
  intros Hq Hp. unfold_handlers. simpl. rewrite Hq, Hp.
  split_tests; done.
Qed.

(** On a build without lines 66-67, or when the two options set there
    succeed, a successful accept completion installs the new socket: it is
    the occupant, it is open, its Read Loop is armed, it is the only open
    socket with a Read Loop, the previous occupant is closed at the instant
    the new Read Loop is launched, and the next accept is armed. *)
Lemma accept_success_installs linux w s res :
  Inv w → expired w = false → s ∈ accepting w →
  (linux = true →
   failed (res tcp_quickack) = false ∧ failed (res (so_priority 6)) = false) →
  let x := step linux (AcceptCompletes s 0 res) w in
  outcome_of x = Returned tt ∧
  socket_ (state_of x) = Some s ∧
  is_open (state_of x) s = true ∧
  s ∈ reading (state_of x) ∧
  (∀ s', s' ∈ open_socks (state_of x) → s' ∈ reading (state_of x) → s' = s) ∧
  (∀ old, socket_ w = Some old →
          at_each (AsyncRead s) (λ v, is_open v old = false) (trace_of x) w) ∧
  (acceptor_ w = true → next_sock w ∈ accepting (state_of x)).
Proof.
  intros HI He Hs Hl x.
  destruct (step_inv linux (AcceptCompletes s 0 res) w HI) as [[I1 _ _ _ _ _ _] _].
  fold x in I1.
  assert (Hne : socket_ w ≠ Some s) by (by apply (inv_accept_slot w HI)).
  assert (Hmain : outcome_of x = Returned tt ∧ socket_ (state_of x) = Some s ∧
            is_open (state_of x) s = true ∧ s ∈ reading (state_of x) ∧
            (∀ old, socket_ w = Some old →
               at_each (AsyncRead s) (λ v, is_open v old = false) (trace_of x) w) ∧
            (acceptor_ w = true → next_sock w ∈ accepting (state_of x))).
  { subst x. clear I1 HI. unfold_handlers. simpl.
    rewrite (bool_decide_eq_true_2 _ Hs), He. simpl.
    destruct linux; [destruct Hl as [Hq Hp]; [done|]; rewrite ?Hq, ?Hp|]; simpl.
    all: split_tests; repeat split; try done.
    all: try match goal with
           | H : socket_ _ = Some ?o, H' : _ ∈ accepting _ |- _ =>
               match type of H' with ?n ∈ _ => assert (o ≠ n) by congruence end
           end.
    all: clear Hne He.
    all: lazymatch goal with
         | |- bool_decide _ = true => apply bool_decide_eq_true_2; set_solver
         | |- _ ∈ _ => clear; set_solver
         | |- AsyncRead _ = AsyncRead _ → _ =>
             intros _; simplify_eq; apply bool_decide_eq_false_2; set_solver
         | |- acceptor_ _ = true → _ =>
             let Ha := fresh in
             intros Ha; rewrite Ha in *; simpl in *;
             first [discriminate | clear; set_solver]
         end. }
  destruct Hmain as (H1 & H2 & H3 & H4 & H5 & H6).
  repeat split; try done.
  intros s' Ho Hr. unfold single_open in I1.
  specialize (I1 s' Ho (or_introl Hr)). congruence.
Qed.

(** On a live endpoint the next accept is armed after an accept completion
    whose handler runs to its end: after a failed accept on every build,
    after a successful one unless one of lines 66-67 throws. *)
Lemma accept_rearms linux w s ec res :
  expired w = false → acceptor_ w = true → s ∈ accepting w →
  (failed ec = true ∨ linux = false ∨
   (failed (res tcp_quickack) = false ∧ failed (res (so_priority 6)) = false)) →
  let x := step linux (AcceptCompletes s ec res) w in
  outcome_of x = Returned tt ∧
  next_sock w ∈ accepting (state_of x) ∧
  [NewSocket (next_sock w); AsyncAccept (next_sock w)] `suffix_of` trace_of x.
Proof.
  intros He Ha Hs Hc x. subst x. unfold_handlers. simpl.
  rewrite (bool_decide_eq_true_2 _ Hs).
  destruct (failed ec) eqn:Hf; simpl; rewrite He; simpl.
  - split_tests; try (rewrite Ha in *; discriminate).
    all: split; [done|split; [clear; set_solver|]].
    all: repeat (first [reflexivity | apply suffix_cons_r]).
  - destruct Hc as [Hc | [-> | [Hq Hp]]]; [done| |].
    + split_tests; try (rewrite Ha in *; discriminate).
      all: split; [done|split; [clear; set_solver|]].
      all: repeat (first [reflexivity | apply suffix_cons_r]).
    + destruct linux; rewrite ?Hq, ?Hp; simpl.
      all: split_tests; try (rewrite Ha in *; discriminate).
      all: split; [done|split; [clear; set_solver|]].
      all: repeat (first [reflexivity | apply suffix_cons_r]).
Qed.

(** On a Linux build, a failure of one of the options set at lines 66-67
    leaves the handler as an exception: the slot is as it was, no read is
    armed and no accept is armed again. *)
Lemma linux_option_failure_throws w s res :
  expired w = false → s ∈ accepting w →
  (failed (res tcp_quickack) = true ∨ failed (res (so_priority 6)) = true) →
  let x := step true (AcceptCompletes s 0 res) w in
  (∃ e, outcome_of x = Threw e ∧ failed e = true) ∧
  socket_ (state_of x) = socket_ w ∧
  reading (state_of x) = reading w ∧
  accepting (state_of x) = accepting w ∖ {[s]} ∧
  armed_reads (trace_of x) = [].
Proof.
  intros He Hs Hc x. subst x. unfold_handlers. simpl.
  rewrite (bool_decide_eq_true_2 _ Hs), He. simpl.
  destruct (failed (res tcp_quickack)) eqn:Hq; simpl.
  - split_tests; repeat split; eauto.
  - destruct Hc as [Hc|Hp]; [done|].
    split_tests; try discriminate; repeat split; eauto.
Qed.

(** C3. On a Linux build a failure of the TCP_QUICKACK or of the
    SO_PRIORITY step is not ignored: [set_option] without an error_code
    throws, the handler is left before the new socket is installed, no read
    and no further accept is armed. A failure of the three options set with
    [ignore_ec] is ignored, as the claim says of all five. *)
Theorem linux_option_failure_aborts_accept_handler :
  let x := run true [StartListen; AcceptCompletes 0%nat 0 quickack_fails] (fresh 8) in
  let y := run true [StartListen; AcceptCompletes 0%nat 0 priority_fails] (fresh 8) in
  let z := run true [StartListen; AcceptCompletes 0%nat 0 ec_options_fail] (fresh 8) in
  (outcome_of x = Threw 92 ∧ socket_ (state_of x) = None ∧
   armed_reads (trace_of x) = [] ∧ elements (accepting (state_of x)) = []) ∧
  (outcome_of y = Threw 1 ∧ socket_ (state_of y) = None ∧
   armed_reads (trace_of y) = [] ∧ elements (accepting (state_of y)) = []) ∧
  (outcome_of z = Returned tt ∧ socket_ (state_of z) = Some 0%nat ∧
   armed_reads (trace_of z) = [0%nat] ∧ elements (accepting (state_of z)) = [1%nat]).
Proof. vm_compute. repeat split. Qed.

(** C1. On a Linux build, a successful accept completion whose
    TCP_QUICKACK or SO_PRIORITY step fails installs nothing: the handler is
    left by the exception before line 70. After a first acceptance the slot
    is empty; after a later one the slot still holds the previous occupant,
    which the handler has closed. In both cases no Read Loop is launched for
    the accepted socket and [isClientConnected()] answers false. *)
Theorem accept_with_option_throw_installs_nothing :
  let x := run true [StartListen; AcceptCompletes 0%nat 0 quickack_fails] (fresh 8) in
  let y := run true [StartListen; AcceptCompletes 0%nat 0 all_ok;
                     AcceptCompletes 1%nat 0 priority_fails] (fresh 8) in
  (outcome_of x = Threw 92 ∧
   socket_ (state_of x) = None ∧
   armed_reads (trace_of x) = [] ∧
   outcome_of (isClientConnected (state_of x)) = Returned false) ∧
  (outcome_of y = Threw 1 ∧
   socket_ (state_of y) = Some 0%nat ∧
   is_open (state_of y) 0%nat = false ∧
   armed_reads (trace_of y) = [0%nat] ∧
   elements (reading (state_of y)) = [0%nat] ∧
   outcome_of (isClientConnected (state_of y)) = Returned false).
Proof. vm_compute. repeat split. Qed.

(** C6. On a Linux build, after a successful accept completion whose
    SO_PRIORITY step fails, no accept is armed on the endpoint although it is
    alive and still has its acceptor: the handler is left at line 67 and
    never reaches the [doAccept()] of line 92. *)
Theorem accept_not_rearmed_after_option_throw :
  let y := run true [StartListen; AcceptCompletes 0%nat 0 all_ok;
                     AcceptCompletes 1%nat 0 priority_fails] (fresh 8) in
  expired (state_of y) = false ∧ acceptor_ (state_of y) = true ∧
  outcome_of y = Threw 1 ∧
  elements (accepting (state_of y)) = [] ∧
  trace_of y =
    [NewSocket 0%nat; AsyncAccept 0%nat;
     AcceptDone 0%nat 0;
     SetOption 0%nat reuse_address 0; SetOption 0%nat no_delay 0;
     SetOption 0%nat keep_alive 0; SetOption 0%nat tcp_quickack 0;
     SetOption 0%nat (so_priority 6) 0;
     SlotAssign 0%nat; Log INFO (AcceptClient 0%nat); AsyncRead 0%nat;
     NewSocket 1%nat; AsyncAccept 1%nat;
     AcceptDone 1%nat 0;
     Cancel 0%nat; Shutdown 0%nat; Close 0%nat;
     Log INFO (NewConnectionCloseOld 0%nat);
     SetOption 1%nat reuse_address 0; SetOption 1%nat no_delay 0;
     SetOption 1%nat keep_alive 0; SetOption 1%nat tcp_quickack 0;
     SetOption 1%nat (so_priority 6) 1].
Proof. vm_compute. repeat split. Qed.

(* ===================================================================== *)
(** * More on the execution engine                                       *)
(* ===================================================================== *)

(** [stop] on a running engine, in full. *)
Lemma stop_running_state e :
  Engine.consistent e → Engine.running e = true →
  Engine.stop e =
  Engine.Done {| Engine.s_server_thread_ := None; Engine.s_work_guard_ptr_ := None;
                 Engine.s_io_context_ptr_ := None; Engine.unjoined := [];
                 Engine.fifo_requested := Engine.fifo_requested e;
                 Engine.next_tid := Engine.next_tid e;
                 Engine.next_ctx := Engine.next_ctx e |}.
Proof.
  unfold Engine.consistent, Engine.running, Engine.stop, Engine.release_work,
    Engine.stop_context.
  destruct (Engine.s_server_thread_ e) as [th|] eqn:E; [|done].
  intros (Hj & Hu & [g Hg] & [c Hc]) _. rewrite Hg. simpl. rewrite Hc. simpl.
  unfold Engine.join_thread, Engine.reset_statics. simpl. rewrite Hj. simpl.
  rewrite Hu.
  assert (Hf : filter (λ x : nat, x ≠ Engine.tid th) [Engine.tid th] = [])
    by (rewrite filter_cons_False; [done | intros H; by apply H]).
  by rewrite Hf.
Qed.

Lemma engine_ids_ok_init : engine_ids_ok Engine.init.
Proof. repeat split; intros ?; discriminate. Qed.

Lemma engine_ids_ok_start e : engine_ids_ok e → engine_ids_ok (Engine.start e).
Proof.
  intros Hi. pose proof Hi as (Ht & Hc & Hf). unfold Engine.start.
  destruct (Engine.s_server_thread_ e) as [th|] eqn:E; [exact Hi|].
  repeat split; simpl.
  - intros th [= <-]. simpl. lia.
  - intros c [= <-]. simpl.
    destruct (Engine.s_io_context_ptr_ e) as [c0|] eqn:Ec; simpl; [by apply Hc|lia].
  - rewrite Hf.
    change (0%nat :: seq 1 (Engine.next_tid e)) with (seq 0 (S (Engine.next_tid e))).
    by rewrite seq_S.
Qed.

Lemma engine_ids_ok_calls cs : ∀ e e',
  Engine.consistent e → engine_ids_ok e →
  Engine.calls cs e = Engine.Done e' → engine_ids_ok e'.
Proof.
  induction cs as [|[] cs IH]; simpl; intros e e' He Hi Hc.
  - by injection Hc as <-.
  - eapply IH; [| |done]; [by apply consistent_start | by apply engine_ids_ok_start].
  - destruct (Engine.running e) eqn:R.
    + destruct (stop_running e He R) as (e1 & Hs1 & He1 & _).
      rewrite Hs1 in Hc. simpl in Hc. eapply IH; [done| |done].
      rewrite (stop_running_state e He R) in Hs1. injection Hs1 as <-.
      destruct Hi as (_ & _ & Hf). repeat split; simpl; try done; intros ?; discriminate.
    + rewrite (stop_not_running e He R) in Hc. done.
Qed.

(** X1. In every state the lifecycle calls reach, a constructor call
    whose buffer can be built throws TCP_SERVER_CONTEXT_NULL exactly when
    the engine is not running: before the first [start()] and after a
    [stop()]. On a running engine it yields a listening endpoint with an
    empty slot and a buffer of the given size, unless the acceptor cannot be
    bound or cannot listen: then the system's error leaves the constructor.
    A negative buffer size, or one that cannot be allocated, fails before
    any of this. *)
Theorem constructor_needs_running_engine (cs : list Engine.call) (e : Engine.t)
    (port recv_buf_size : Z) (alloc_ok : bool) (bind_ec listen_ec : error_code) :
  Engine.calls cs Engine.init = Engine.Done e →
  TcpServer e port recv_buf_size alloc_ok bind_ec listen_ec =
    (if recv_buf_size <? 0 then LengthError
     else if negb alloc_ok then BadAlloc
     else if negb (Engine.running e) then ContextNull
     else if failed bind_ec then SystemError bind_ec
     else if failed listen_ec then SystemError listen_ec
     else Constructed (fresh (Z.to_nat recv_buf_size))).
Proof.
  intros Hc.
  assert (He : Engine.consistent e) by (eapply consistent_calls; [apply consistent_init|done]).
  unfold TcpServer, Engine.running, Engine.consistent in *.
  destruct (recv_buf_size <? 0); [done|]. destruct (negb alloc_ok); [done|].
  destruct (Engine.s_server_thread_ e).
  - destruct He as (_ & _ & _ & [c ->]). done.
  - destruct He as (_ & _ & ->). done.
Qed.

Lemma constructor_needs_running_engine_witness :
  TcpServer (Engine.start Engine.init) 50001 16 true 0 0 = Constructed (fresh 16) ∧
  TcpServer (Engine.start Engine.init) 50001 16 true 98 0 = SystemError 98.
Proof.
  split.
  - apply (constructor_needs_running_engine [Engine.Start] (Engine.start Engine.init)
             50001 16 true 0 0). reflexivity.
  - apply (constructor_needs_running_engine [Engine.Start] (Engine.start Engine.init)
             50001 16 true 98 0). reflexivity.
Defined.

(** X2. Whatever sequence of [start()] and [stop()] calls is made from
    static initialisation, it never destroys a joinable thread
    (std::terminate) and never gets as far as dereferencing a null reactor
    pointer: it either runs through, or ends at the null
    [s_work_guard_ptr_] of a [stop()] on an engine that is not running. *)
Theorem lifecycle_calls_outcome (cs : list Engine.call) :
  (∃ e, Engine.calls cs Engine.init = Engine.Done e) ∨
  Engine.calls cs Engine.init = Engine.NullDeref Engine.WorkGuardPtr.
Proof.
  assert (H : ∀ e, Engine.consistent e →
            (∃ e', Engine.calls cs e = Engine.Done e') ∨
            Engine.calls cs e = Engine.NullDeref Engine.WorkGuardPtr).
  { induction cs as [|[] cs IH]; simpl; intros e He.
    - left. by exists e.
    - by apply IH, consistent_start.
    - destruct (Engine.running e) eqn:R.
      + destruct (stop_running e He R) as (e1 & Hs1 & He1 & _).
        rewrite Hs1. simpl. by apply IH.
      + right. by rewrite (stop_not_running e He R). }
  apply H, consistent_init.
Qed.

(** X3. [stop()] followed by [start()] on a running engine gives a new
    thread and a new reactor: the thread is one never used before and is the
    only unjoined one, and the reactor differs from the one an endpoint
    constructed before the [stop()] holds. *)
Theorem restart_makes_new_thread_and_reactor (cs : list Engine.call) (e : Engine.t) :
  Engine.calls cs Engine.init = Engine.Done e → Engine.running e = true →
  ∃ e1 th th',
    Engine.stop e = Engine.Done e1 ∧
    Engine.s_server_thread_ e = Some th ∧
    Engine.s_server_thread_ (Engine.start e1) = Some th' ∧
    (Engine.tid th < Engine.tid th')%nat ∧
    Engine.unjoined (Engine.start e1) = [Engine.tid th'] ∧
    is_Some (captured_context e) ∧
    is_Some (captured_context (Engine.start e1)) ∧
    captured_context (Engine.start e1) ≠ captured_context e.
Proof.
  intros Hc Hr.
  assert (He : Engine.consistent e) by (eapply consistent_calls; [apply consistent_init|done]).
  assert (Hi : engine_ids_ok e)
    by (eapply engine_ids_ok_calls; [apply consistent_init|apply engine_ids_ok_init|done]).
  pose proof (stop_running_state e He Hr) as Hs.
  destruct Hi as (Ht & Hx & _).
  unfold Engine.consistent, Engine.running in *.
  destruct (Engine.s_server_thread_ e) as [th|] eqn:E; [|done].
  destruct He as (_ & _ & _ & [c Hctx]).
  eexists _, th, _. split; [exact Hs|]. split; [done|].
  unfold Engine.start, captured_context. simpl. rewrite Hctx. simpl.
  repeat split; eauto.
  intros [= Heq]. specialize (Hx c Hctx). lia.
Qed.

Lemma restart_makes_new_thread_and_reactor_witness :
  ∃ e1 th th',
    Engine.stop (Engine.start Engine.init) = Engine.Done e1 ∧
    Engine.s_server_thread_ (Engine.start Engine.init) = Some th ∧
    Engine.s_server_thread_ (Engine.start e1) = Some th' ∧
    (Engine.tid th < Engine.tid th')%nat ∧
    Engine.unjoined (Engine.start e1) = [Engine.tid th'] ∧
    is_Some (captured_context (Engine.start Engine.init)) ∧
    is_Some (captured_context (Engine.start e1)) ∧
    captured_context (Engine.start e1) ≠ captured_context (Engine.start Engine.init).
Proof.
  apply (restart_makes_new_thread_and_reactor [Engine.Start] (Engine.start Engine.init));
    reflexivity.
Defined.

(** X4. FIFO scheduling is requested once for every thread the engine
    creates, in creation order, and for nothing else: a [start()] that finds
    the engine running and a [stop()] request none. *)
Theorem fifo_requested_once_per_thread (cs : list Engine.call) (e : Engine.t) :
  Engine.calls cs Engine.init = Engine.Done e →
  Engine.fifo_requested e = seq 0 (Engine.next_tid e) ∧
  NoDup (Engine.fifo_requested e) ∧
  Engine.fifo_requested (Engine.start (Engine.start e)) =
    Engine.fifo_requested (Engine.start e).
Proof.
  intros Hc.
  assert (Hi : engine_ids_ok e)
    by (eapply engine_ids_ok_calls; [apply consistent_init|apply engine_ids_ok_init|done]).
  destruct Hi as (_ & _ & Hf). split; [done|]. split.
  - rewrite Hf. apply NoDup_ListNoDup, seq_NoDup.
  - by rewrite (start_when_running (Engine.start e) (start_running e)).
Qed.

Lemma fifo_requested_once_per_thread_witness :
  let e := Engine.start Engine.init in
  Engine.fifo_requested e = seq 0 (Engine.next_tid e) ∧
  NoDup (Engine.fifo_requested e) ∧
  Engine.fifo_requested (Engine.start (Engine.start e)) =
    Engine.fifo_requested (Engine.start e).
Proof.
  apply (fifo_requested_once_per_thread [Engine.Start] (Engine.start Engine.init)).
  reflexivity.
Defined.

(* ===================================================================== *)
(** * More on the endpoint                                               *)
(* ===================================================================== *)

(** On a destroyed endpoint every event is inert: the handlers see the
    expired weak pointer and return, so all that is left in the trace is the
    reactor's mark that the operation completed. *)
Lemma step_expired linux ev w :
  expired w = true →
  outcome_of (step linux ev w) = Returned tt ∧
  expired (state_of (step linux ev w)) = true ∧
  socket_ (state_of (step linux ev w)) = socket_ w ∧
  Forall completion_mark (trace_of (step linux ev w)).
Proof.
  intros He. destruct ev; unfold_handlers; simpl; rewrite ?He; simpl.
  all: split_tests; try congruence; repeat split; try done.
  all: repeat constructor.
Qed.

Lemma run_expired linux evs : ∀ w,
  expired w = true →
  outcome_of (run linux evs w) = Returned tt ∧
  expired (state_of (run linux evs w)) = true ∧
  socket_ (state_of (run linux evs w)) = socket_ w ∧
  Forall completion_mark (trace_of (run linux evs w)).
Proof.
  induction evs as [|ev evs IH]; intros w He; [by repeat split|].
  rewrite run_cons. destruct (step_expired linux ev w He) as (Ho & He1 & Hs1 & Ht1).
  destruct (step linux ev w) as [[[u|ec] w1] t1];
    unfold outcome_of, state_of, trace_of in *; simpl in *; [|done].
  destruct (IH w1 He1) as (Ho2 & He2 & Hs2 & Ht2).
  repeat split; try done; [congruence|]. by apply Forall_app.
Qed.

(** X5. The destructor leaves nothing behind: the acceptor is closed, the
    slot is empty, the occupant and every socket with a read pending are
    closed; and whatever completes afterwards finds the endpoint gone and
    does nothing: no delivery, no read or accept armed, no socket installed. *)
Theorem destructed_endpoint_is_inert (linux : bool) (w : State) :
  reachable linux w → expired w = false →
  let x := step linux Destruct w in
  outcome_of x = Returned tt ∧
  expired (state_of x) = true ∧
  acceptor_ (state_of x) = false ∧
  socket_ (state_of x) = None ∧
  (∀ s, socket_ w = Some s ∨ s ∈ reading w → is_open (state_of x) s = false) ∧
  ∀ evs, let y := run linux evs (state_of x) in
    outcome_of y = Returned tt ∧
    Forall completion_mark (trace_of y) ∧
    socket_ (state_of y) = None ∧
    expired (state_of y) = true.
Proof.
  intros Hreach He x.
  destruct (reachable_inv linux w Hreach) as [I1 _ _ _ _ _ _].
  unfold single_open in I1.
  assert (Hmain : outcome_of x = Returned tt ∧ expired (state_of x) = true ∧
            acceptor_ (state_of x) = false ∧ socket_ (state_of x) = None ∧
            (∀ s, socket_ w = Some s ∨ s ∈ reading w → is_open (state_of x) s = false)).
  { subst x. unfold_handlers. simpl. rewrite He. simpl.
    split_tests; repeat split; try done.
    all: intros s' Hs'; apply bool_decide_eq_false_2; intros Ho.
    all: assert (Hin : s' ∈ open_socks w) by (clear -Ho; set_solver).
    all: pose proof (I1 s' Hin ltac:(tauto)) as Hslot.
    all: simplify_eq; clear I1 Hreach; set_solver. }
  destruct Hmain as (H1 & H2 & H3 & H4 & H5). repeat split; try done.
  - by apply run_expired.
  - by apply run_expired.
  - destruct (run_expired linux evs (state_of x) H2) as (_ & _ & -> & _). done.
  - by apply run_expired.
Qed.

Lemma destructed_endpoint_is_inert_witness :
  let w := state_of (run true [StartListen; AcceptCompletes 0%nat 0 all_ok] (fresh 4)) in
  let x := step true Destruct w in
  outcome_of x = Returned tt ∧
  expired (state_of x) = true ∧
  acceptor_ (state_of x) = false ∧
  socket_ (state_of x) = None ∧
  (∀ s, socket_ w = Some s ∨ s ∈ reading w → is_open (state_of x) s = false) ∧
  ∀ evs, let y := run true evs (state_of x) in
    outcome_of y = Returned tt ∧
    Forall completion_mark (trace_of y) ∧
    socket_ (state_of y) = None ∧
    expired (state_of y) = true.
Proof.
  apply (destructed_endpoint_is_inert true
           (state_of (run true [StartListen; AcceptCompletes 0%nat 0 all_ok] (fresh 4)))).
  - exists 4%nat, [StartListen; AcceptCompletes 0%nat 0 all_ok]. reflexivity.
  - reflexivity.
Defined.

(** Only the destructor makes the weak pointer expire. *)
Lemma step_keeps_alive linux ev w :
  expired w = false →
  match ev with
  | Destruct => True
  | _ => expired (state_of (step linux ev w)) = false
  end.
Proof.
  intros He. destruct ev; try done; unfold_handlers; simpl.
  all: split_tests; simpl; congruence.
Qed.

(** A failed read of a pending socket on a live endpoint: the slot is as
    it was and the socket is closed. *)
Lemma read_failure_closes linux w s ec data :
  expired w = false → s ∈ reading w → failed ec = true →
  socket_ (state_of (step linux (ReadCompletes s ec data) w)) = socket_ w ∧
  is_open (state_of (step linux (ReadCompletes s ec data) w)) s = false.
Proof.
  intros He Hr Hf. unfold_handlers. simpl.
  rewrite (bool_decide_eq_true_2 _ Hr), He, Hf. simpl.
  destruct (bool_decide (s ∈ open_socks w)) eqn:Ho; simpl; rewrite ?Ho; simpl.
  - split; [done|]. apply bool_decide_eq_false_2. clear; set_solver.
  - done.
Qed.

(** X6. [isClientConnected()] is true right after a successful accept whose
    handler ran to its end, and false right after the read of that
    connection failed; the slot still names the closed socket then. The
    query itself changes nothing and performs no action. *)
Theorem connected_from_accept_until_read_failure (linux : bool) (w : State)
    (s : sock) (res : SockOpt → error_code) (ec : error_code) (data : list byte) :
  reachable linux w → expired w = false → s ∈ accepting w →
  (linux = true →
   failed (res tcp_quickack) = false ∧ failed (res (so_priority 6)) = false) →
  failed ec = true →
  let w1 := state_of (step linux (AcceptCompletes s 0 res) w) in
  let w2 := state_of (step linux (ReadCompletes s ec data) w1) in
  isClientConnected w1 = (Returned true, w1, []) ∧
  isClientConnected w2 = (Returned false, w2, []) ∧
  socket_ w2 = Some s.
Proof.
  intros Hreach He Hs Hl Hf w1 w2.
  destruct (accept_success_installs linux w s res (reachable_inv _ _ Hreach) He Hs Hl)
    as (_ & Hslot & Hopen & Hrd & _).
  fold w1 in Hslot, Hopen, Hrd.
  pose proof (step_keeps_alive linux (AcceptCompletes s 0 res) w He) as He1.
  simpl in He1. fold w1 in He1.
  destruct (read_failure_closes linux w1 s ec data He1 Hrd Hf) as (Hslot2 & Hopen2).
  fold w2 in Hslot2, Hopen2.
  unfold isClientConnected, mbind, M_bind, mret, M_ret, get. simpl.
  rewrite Hslot2, Hslot, Hopen, Hopen2. done.
Qed.

Lemma connected_from_accept_until_read_failure_witness :
  let w := state_of (run true [StartListen] (fresh 4)) in
  let w1 := state_of (step true (AcceptCompletes 0%nat 0 all_ok) w) in
  let w2 := state_of (step true (ReadCompletes 0%nat 2 []) w1) in
  isClientConnected w1 = (Returned true, w1, []) ∧
  isClientConnected w2 = (Returned false, w2, []) ∧
  socket_ w2 = Some 0%nat.
Proof.
  apply (connected_from_accept_until_read_failure true
           (state_of (run true [StartListen] (fresh 4))) 0%nat all_ok 2 []).
  - exists 4%nat, [StartListen]. reflexivity.
  - reflexivity.
  - apply elem_of_by_compute. vm_compute. reflexivity.
  - intros _. split; reflexivity.
  - reflexivity.
Defined.

(** X7. An accept completion that reports an error costs the live
    connection: the occupant is closed (with an ERROR event when it was
    open), the slot is cleared, no socket is opened, and from then on [isClientConnected()] is false and
    [writeClient] returns -1 without I/O. *)
Theorem accept_failure_drops_connection (linux : bool) (w : State) (s : sock)
    (ec : error_code) (res : SockOpt → error_code) :
  expired w = false → s ∈ accepting w → failed ec = true →
  let x := step linux (AcceptCompletes s ec res) w in
  outcome_of x = Returned tt ∧
  socket_ (state_of x) = None ∧
  (∀ old, socket_ w = Some old →
     is_open (state_of x) old = false ∧
     (is_open w old = true → Log ERROR (AcceptFailCloseOld ec old) ∈ trace_of x)) ∧
  open_socks (state_of x) ⊆ open_socks w ∧
  isClientConnected (state_of x) = (Returned false, state_of x, []) ∧
  ∀ size n ec', writeClient size n ec' (state_of x) = (Returned (-1), state_of x, []).
Proof.
  intros He Hs Hf x. subst x. unfold_handlers. simpl.
  rewrite (bool_decide_eq_true_2 _ Hs), Hf. simpl. rewrite He. simpl.
  split_tests; repeat split; try done.
  all: lazymatch goal with
       | |- bool_decide _ = false =>
           simplify_eq; apply bool_decide_eq_false_2; set_solver
       | |- bool_decide _ = true → _ =>
           let Ht := fresh in
           intros Ht; apply bool_decide_eq_true in Ht; simplify_eq;
           first [done | set_solver]
       | |- _ ⊆ _ => clear; set_solver
       end.
Qed.

Lemma accept_failure_drops_connection_witness :
  let w := state_of (run true [StartListen; AcceptCompletes 0%nat 0 all_ok] (fresh 4)) in
  let x := step true (AcceptCompletes 1%nat 24 all_ok) w in
  outcome_of x = Returned tt ∧
  socket_ (state_of x) = None ∧
  (∀ old, socket_ w = Some old →
     is_open (state_of x) old = false ∧
     (is_open w old = true → Log ERROR (AcceptFailCloseOld 24 old) ∈ trace_of x)) ∧
  open_socks (state_of x) ⊆ open_socks w ∧
  isClientConnected (state_of x) = (Returned false, state_of x, []) ∧
  ∀ size n ec', writeClient size n ec' (state_of x) = (Returned (-1), state_of x, []).
Proof.
  apply (accept_failure_drops_connection true
           (state_of (run true [StartListen; AcceptCompletes 0%nat 0 all_ok] (fresh 4)))
           1%nat 24 all_ok).
  - reflexivity.
  - apply elem_of_by_compute. vm_compute. reflexivity.
  - reflexivity.
Defined.

(** X8. The read of a socket that is no longer the occupant of the slot
    ends in silence: by the time its failure is handled the socket is closed
    already, so the handler neither closes nor logs anything; all that
    happens is that the pending read is gone. *)
Theorem replaced_socket_failure_is_silent (linux : bool) (w : State) (s : sock)
    (ec : error_code) (data : list byte) :
  reachable linux w → s ∈ reading w → socket_ w ≠ Some s → failed ec = true →
  is_open w s = false ∧
  step linux (ReadCompletes s ec data) w =
    (Returned tt, set_reading (reading w ∖ {[s]}) w, [ReadDone s]).
Proof.
  intros Hreach Hr Hslot Hf.
  destruct (reachable_inv linux w Hreach) as [I1 _ _ _ _ _ _].
  assert (Hcl : s ∉ open_socks w).
  { intros Ho. apply Hslot, (I1 s Ho). by left. }
  unfold is_open. rewrite (bool_decide_eq_false_2 _ Hcl). split; [done|].
  unfold_handlers. simpl.
  rewrite (bool_decide_eq_true_2 _ Hr), Hf, (bool_decide_eq_false_2 _ Hcl).
  by destruct (expired w).
Qed.

Lemma replaced_socket_failure_is_silent_witness :
  let w := state_of (run true [StartListen; AcceptCompletes 0%nat 0 all_ok;
                               AcceptCompletes 1%nat 0 all_ok] (fresh 4)) in
  is_open w 0%nat = false ∧
  step true (ReadCompletes 0%nat 125 []) w =
    (Returned tt, set_reading (reading w ∖ {[0%nat]}) w, [ReadDone 0%nat]).
Proof.
  apply (replaced_socket_failure_is_silent true
           (state_of (run true [StartListen; AcceptCompletes 0%nat 0 all_ok;
                                AcceptCompletes 1%nat 0 all_ok] (fresh 4)))
           0%nat 125 []).
  - exists 4%nat, [StartListen; AcceptCompletes 0%nat 0 all_ok;
                   AcceptCompletes 1%nat 0 all_ok]. reflexivity.
  - apply elem_of_by_compute. vm_compute. reflexivity.
  - vm_compute. discriminate.
  - reflexivity.
Defined.

(** X9. At every instant of every run of an endpoint, on either build and
    also when a handler is left by an exception, an open socket that
    occupies the slot or has a read pending is the occupant of the slot: the
    sockets of replaced connections are closed before anything else is
    installed. [take n] of the trace is the run up to its n-th action. *)
Theorem open_associated_socket_is_occupant (linux : bool) (cap : nat)
    (evs : list Event) (n : nat) :
  single_open (replay (take n (trace_of (run linux evs (fresh cap)))) (fresh cap)).
Proof.
  destruct (run_inv linux evs (fresh cap) (fresh_inv cap)) as [_ Ha].
  eapply always_prefix; [exact Ha|]. symmetry. apply take_drop.
Qed.

(** Without a callback nothing is delivered, and only [setReceiveCallback]
    registers one. *)
Lemma step_no_callback linux ev w :
  receive_cb_ w = false → ev ≠ SetReceiveCallback →
  deliveries (trace_of (step linux ev w)) = [] ∧
  receive_cb_ (state_of (step linux ev w)) = false.
Proof.
  intros Hc Hne. destruct ev; try done; unfold_handlers; simpl.
  all: split_tests; simpl; split; congruence.
Qed.

(** X10. As long as [setReceiveCallback] has not been called, nothing is
    ever delivered; a successful read completion on the live endpoint is
    then only completed and armed again, so that its bytes are discarded. *)
Theorem no_callback_no_delivery (linux : bool) (evs : list Event) (w : State) :
  receive_cb_ w = false → SetReceiveCallback ∉ evs →
  let w' := state_of (run linux evs w) in
  deliveries (trace_of (run linux evs w)) = [] ∧
  receive_cb_ w' = false ∧
  ∀ s data, expired w' = false → s ∈ reading w' →
    trace_of (step linux (ReadCompletes s 0 data) w') = [ReadDone s; AsyncRead s] ∧
    s ∈ reading (state_of (step linux (ReadCompletes s 0 data) w')).
Proof.
  intros Hc Hn w'.
  assert (Hmain : deliveries (trace_of (run linux evs w)) = [] ∧ receive_cb_ w' = false).
  { subst w'. revert w Hc Hn. induction evs as [|ev evs IH]; intros w Hc Hn; [done|].
    rewrite run_cons.
    assert (Hne : ev ≠ SetReceiveCallback) by (intros ->; apply Hn; by left).
    assert (Hn' : SetReceiveCallback ∉ evs) by (intros H; apply Hn; by right).
    destruct (step_no_callback linux ev w Hc Hne) as [Hd Hc1].
    destruct (step linux ev w) as [[[u|ec] w1] t1];
      unfold state_of, trace_of in *; simpl in *; [|done].
    destruct (IH w1 Hc1 Hn') as [Hd2 Hc2].
    by rewrite deliveries_app, Hd, Hd2. }
  destruct Hmain as [Hd Hc']. split; [done|]. split; [done|].
  intros s data He Hr. unfold_handlers. simpl.
  rewrite (bool_decide_eq_true_2 _ Hr), He, Hc'. simpl.
  split; [done|]. clear; set_solver.
Qed.

Lemma no_callback_no_delivery_witness :
  let evs := [StartListen; AcceptCompletes 0%nat 0 all_ok;
              ReadCompletes 0%nat 0 [x01; x02; x03; x04]] in
  let w' := state_of (run true evs (fresh 4)) in
  deliveries (trace_of (run true evs (fresh 4))) = [] ∧
  receive_cb_ w' = false ∧
  ∀ s data, expired w' = false → s ∈ reading w' →
    trace_of (step true (ReadCompletes s 0 data) w') = [ReadDone s; AsyncRead s] ∧
    s ∈ reading (state_of (step true (ReadCompletes s 0 data) w')).
Proof.
  apply (no_callback_no_delivery true
           [StartListen; AcceptCompletes 0%nat 0 all_ok;
            ReadCompletes 0%nat 0 [x01; x02; x03; x04]] (fresh 4)).
  - reflexivity.
  - intros H. repeat (apply elem_of_cons in H as [H|H]; [discriminate|]).
    by apply elem_of_nil in H.
Defined.

(** X11. [startListen()] has no guard against being called again: on a
    live endpoint every call arms one more accept, on a socket of its own
    that no pending operation and no slot knows yet. *)
Theorem startListen_arms_one_more_accept (linux : bool) (w : State) :
  reachable linux w → expired w = false → acceptor_ w = true →
  let x := step linux StartListen w in
  outcome_of x = Returned tt ∧
  trace_of x = [NewSocket (next_sock w); AsyncAccept (next_sock w)] ∧
  accepting (state_of x) = accepting w ∪ {[next_sock w]} ∧
  (next_sock w ∉ accepting w) ∧ (next_sock w ∉ reading w) ∧
  socket_ w ≠ Some (next_sock w) ∧
  size (accepting (state_of x)) = S (size (accepting w)).
Proof.
  intros Hreach He Ha x.
  destruct (reachable_inv linux w Hreach) as [_ _ _ I4 I5 I6 _].
  assert (H1 : next_sock w ∉ accepting w) by (intros H; apply I4 in H; lia).
  assert (H2 : next_sock w ∉ reading w) by (intros H; apply I5 in H; lia).
  assert (H3 : socket_ w ≠ Some (next_sock w)) by (intros H; apply I6 in H; lia).
  subst x. unfold_handlers. simpl. rewrite He, Ha. simpl.
  repeat split; try done.
  rewrite size_union by (clear -H1; set_solver).
  rewrite size_singleton. lia.
Qed.

Lemma startListen_arms_one_more_accept_witness :
  let w := state_of (run true [StartListen] (fresh 4)) in
  let x := step true StartListen w in
  outcome_of x = Returned tt ∧
  trace_of x = [NewSocket (next_sock w); AsyncAccept (next_sock w)] ∧
  accepting (state_of x) = accepting w ∪ {[next_sock w]} ∧
  (next_sock w ∉ accepting w) ∧ (next_sock w ∉ reading w) ∧
  socket_ w ≠ Some (next_sock w) ∧
  size (accepting (state_of x)) = S (size (accepting w)).
Proof.
  apply (startListen_arms_one_more_accept true (state_of (run true [StartListen] (fresh 4)))).
  - exists 4%nat, [StartListen]. reflexivity.
  - reflexivity.
  - reflexivity.
Defined.

(** X12. [writeClient] never returns a negative value other than -1, and a
    value that is not -1 means that the slot was occupied and the write
    reported no error; the value is then the count as a 32-bit int. *)
Theorem writeClient_return_range (w : State) (size : Z) (n : N) (ec : error_code) :
  ∃ r, outcome_of (writeClient size n ec w) = Returned r ∧
       (r = -1 ∨
        (0 ≤ r < 2 ^ 31 ∧ is_Some (socket_ w) ∧ failed ec = false ∧
         r mod 2 ^ 32 = Z.of_N n mod 2 ^ 32)).
Proof.
  unfold writeClient, mbind, M_bind, mret, M_ret, get, emit, outcome_of. simpl.
  destruct (socket_ w) as [s|]; simpl; [|exists (-1); by split; [|left]].
  destruct (int_of_size_t_range n) as [Hr Hm].
  destruct (int_of_size_t n <? 0) eqn:Hneg; simpl;
    [exists (-1); by split; [|left]|].
  destruct (failed ec) eqn:Hf; simpl; [exists (-1); by split; [|left]|].
  apply Z.ltb_ge in Hneg.
  exists (int_of_size_t n). split; [done|]. right. repeat split; eauto; lia.
Qed.

(** X13. After the read of the occupant failed, the slot still holds the
    closed socket: [isClientConnected()] answers false, but [writeClient]
    tests the slot only and still attempts the write on that socket. *)
Theorem write_attempted_on_closed_occupant (linux : bool) (w : State) (s : sock)
    (ec : error_code) (data : list byte) (size : Z) (n : N) (ec' : error_code) :
  expired w = false → socket_ w = Some s → s ∈ reading w → failed ec = true →
  let w' := state_of (step linux (ReadCompletes s ec data) w) in
  outcome_of (isClientConnected w') = Returned false ∧
  trace_of (writeClient size n ec' w') = [Write s size n ec'].
Proof.
  intros He Hslot Hr Hf w'.
  destruct (read_failure_closes linux w s ec data He Hr Hf) as (Hs' & Ho').
  fold w' in Hs', Ho'. rewrite Hslot in Hs'.
  unfold isClientConnected, writeClient, mbind, M_bind, mret, M_ret, get, emit,
    outcome_of, trace_of. simpl.
  rewrite Hs', Ho'. simpl. split; [done|].
  by destruct ((int_of_size_t n <? 0) || failed ec').
Qed.

Lemma write_attempted_on_closed_occupant_witness :
  let w := state_of (run true [StartListen; AcceptCompletes 0%nat 0 all_ok] (fresh 4)) in
  let w' := state_of (step true (ReadCompletes 0%nat 2 []) w) in
  outcome_of (isClientConnected w') = Returned false ∧
  trace_of (writeClient 4 0%N 9 w') = [Write 0%nat 4 0%N 9].
Proof.
  apply (write_attempted_on_closed_occupant true
           (state_of (run true [StartListen; AcceptCompletes 0%nat 0 all_ok] (fresh 4)))
           0%nat 2 [] 4 0%N 9).
  - reflexivity.
  - reflexivity.
  - apply elem_of_by_compute. vm_compute. reflexivity.
  - reflexivity.
Defined.

(** X14. [closeSocket] closes its socket and nothing else, and is
    idempotent: on a closed socket, in particular a second time, it performs
    no action at all. *)
Theorem closeSocket_idempotent (w : State) (s : sock) :
  let x := closeSocket s w in
  outcome_of x = Returned tt ∧
  is_open (state_of x) s = false ∧
  open_socks (state_of x) = open_socks w ∖ {[s]} ∧
  socket_ (state_of x) = socket_ w ∧
  reading (state_of x) = reading w ∧
  accepting (state_of x) = accepting w ∧
  closeSocket s (state_of x) = (Returned tt, state_of x, []).
Proof.
  intros x.
  assert (Hmain : outcome_of x = Returned tt ∧ is_open (state_of x) s = false ∧
            open_socks (state_of x) = open_socks w ∖ {[s]} ∧
            socket_ (state_of x) = socket_ w ∧ reading (state_of x) = reading w ∧
            accepting (state_of x) = accepting w).
  { subst x. unfold_handlers. simpl.
    destruct (bool_decide (s ∈ open_socks w)) eqn:Ho; simpl.
    - repeat split. apply bool_decide_eq_false_2. set_solver.
    - apply bool_decide_eq_false in Ho. repeat split.
      + by apply bool_decide_eq_false_2.
      + set_solver. }
  destruct Hmain as (H1 & H2 & H3 & H4 & H5 & H6). repeat split; try done.
  unfold closeSocket, mbind, M_bind, mret, M_ret, get. simpl. by rewrite H2.
Qed.



(** X17. [read_cb] makes no test on its socket before it delivers: a
    successful completion that was dispatched for a socket after its
    connection was replaced is still handed to the callback, and a read is
    armed again on that socket although it is closed. *)
Theorem completion_of_replaced_socket_is_delivered (linux : bool) (w : State)
    (s : sock) (data : list byte) :
  reachable linux w → expired w = false → receive_cb_ w = true →
  s ∈ reading w → socket_ w ≠ Some s →
  let x := step linux (ReadCompletes s 0 data) w in
  is_open w s = false ∧
  trace_of x = [ReadDone s; Deliver data; AsyncRead s] ∧
  s ∈ reading (state_of x) ∧
  is_open (state_of x) s = false ∧
  socket_ (state_of x) = socket_ w.
Proof.
  intros Hreach He Hc Hr Hslot x.
  destruct (reachable_inv linux w Hreach) as [I1 _ _ _ _ _ _].
  assert (Hcl : s ∉ open_socks w).
  { intros Ho. apply Hslot, (I1 s Ho). by left. }
  subst x. unfold_handlers. simpl.
  rewrite (bool_decide_eq_true_2 _ Hr), He, Hc. simpl.
  rewrite (bool_decide_eq_false_2 _ Hcl). repeat split. clear; set_solver.
Qed.

Lemma completion_of_replaced_socket_is_delivered_witness :
  let w := state_of (run true [SetReceiveCallback; StartListen;
                               AcceptCompletes 0%nat 0 all_ok;
                               AcceptCompletes 1%nat 0 all_ok] (fresh 2)) in
  let x := step true (ReadCompletes 0%nat 0 [x01; x02]) w in
  is_open w 0%nat = false ∧
  trace_of x = [ReadDone 0%nat; Deliver [x01; x02]; AsyncRead 0%nat] ∧
  0%nat ∈ reading (state_of x) ∧
  is_open (state_of x) 0%nat = false ∧
  socket_ (state_of x) = socket_ w.
Proof.
  apply (completion_of_replaced_socket_is_delivered true
           (state_of (run true [SetReceiveCallback; StartListen;
                                AcceptCompletes 0%nat 0 all_ok;
                                AcceptCompletes 1%nat 0 all_ok] (fresh 2)))
           0%nat [x01; x02]).
  - exists 2%nat, [SetReceiveCallback; StartListen; AcceptCompletes 0%nat 0 all_ok;
                   AcceptCompletes 1%nat 0 all_ok]. reflexivity.
  - reflexivity.
  - reflexivity.
  - apply elem_of_by_compute. vm_compute. reflexivity.
  - vm_compute. discriminate.
Defined.

(** X18. On a build without lines 66-67, or when the two options set there
    succeed, a successful accept completion replaces the connection: the
    accepted socket is the occupant, open, with its Read Loop armed; it is
    the only open socket with a read pending; and the previous occupant is
    closed at the instant the new Read Loop is launched. *)
Theorem successful_accept_replaces_occupant (linux : bool) (w : State) (s : sock)
    (res : SockOpt → error_code) :
  reachable linux w → expired w = false → s ∈ accepting w →
  (linux = true →
   failed (res tcp_quickack) = false ∧ failed (res (so_priority 6)) = false) →
  let x := step linux (AcceptCompletes s 0 res) w in
  outcome_of x = Returned tt ∧
  socket_ (state_of x) = Some s ∧
  is_open (state_of x) s = true ∧
  s ∈ reading (state_of x) ∧
  (∀ s', s' ∈ open_socks (state_of x) → s' ∈ reading (state_of x) → s' = s) ∧
  (∀ old, socket_ w = Some old →
          at_each (AsyncRead s) (λ v, is_open v old = false) (trace_of x) w).
Proof.
  intros Hreach He Hs Hl x.
  destruct (accept_success_installs linux w s res (reachable_inv _ _ Hreach) He Hs Hl)
    as (H1 & H2 & H3 & H4 & H5 & H6 & _).
  by repeat split.
Qed.

Lemma successful_accept_replaces_occupant_witness :
  let w := state_of (run false [StartListen; AcceptCompletes 0%nat 0 quickack_fails]
                       (fresh 4)) in
  let x := step false (AcceptCompletes 1%nat 0 quickack_fails) w in
  outcome_of x = Returned tt ∧
  socket_ (state_of x) = Some 1%nat ∧
  is_open (state_of x) 1%nat = true ∧
  1%nat ∈ reading (state_of x) ∧
  (∀ s', s' ∈ open_socks (state_of x) → s' ∈ reading (state_of x) → s' = 1%nat) ∧
  (∀ old, socket_ w = Some old →
          at_each (AsyncRead 1%nat) (λ v, is_open v old = false) (trace_of x) w).
Proof.
  apply (successful_accept_replaces_occupant false
           (state_of (run false [StartListen; AcceptCompletes 0%nat 0 quickack_fails]
                        (fresh 4)))
           1%nat quickack_fails).
  - exists 4%nat, [StartListen; AcceptCompletes 0%nat 0 quickack_fails]. reflexivity.
  - reflexivity.
  - apply elem_of_by_compute. vm_compute. reflexivity.
  - discriminate.
Defined.

(** X19. On a live endpoint the next accept is armed, as the last thing the
    handler does, after every accept completion that reports an error, and
    after every successful one on a build without lines 66-67 or when the
    two options set there succeed. *)
Theorem accept_loop_rearms (linux : bool) (w : State) (s : sock)
    (ec : error_code) (res : SockOpt → error_code) :
  expired w = false → acceptor_ w = true → s ∈ accepting w →
  (failed ec = true ∨ linux = false ∨
   (failed (res tcp_quickack) = false ∧ failed (res (so_priority 6)) = false)) →
  let x := step linux (AcceptCompletes s ec res) w in
  outcome_of x = Returned tt ∧
  next_sock w ∈ accepting (state_of x) ∧
  [NewSocket (next_sock w); AsyncAccept (next_sock w)] `suffix_of` trace_of x.
Proof. apply accept_rearms. Qed.

Lemma accept_loop_rearms_witness :
  let w := state_of (run true [StartListen] (fresh 4)) in
  let x := step true (AcceptCompletes 0%nat 24 quickack_fails) w in
  outcome_of x = Returned tt ∧
  next_sock w ∈ accepting (state_of x) ∧
  [NewSocket (next_sock w); AsyncAccept (next_sock w)] `suffix_of` trace_of x.
Proof.
  apply (accept_loop_rearms true (state_of (run true [StartListen] (fresh 4)))
           0%nat 24 quickack_fails).
  - reflexivity.
  - reflexivity.
  - apply elem_of_by_compute. vm_compute. reflexivity.
  - left. reflexivity.
Defined.

(** X20. Failures of the three options set through the error_code overload
    (address reuse, no-delay, keep-alive) are without any effect: the
    handler ends the same way and in the same state whatever these three
    calls report. *)
Theorem ec_overload_option_results_are_ignored (linux : bool) (w : State) (s : sock)
    (ec : error_code) (res res' : SockOpt → error_code) :
  res' tcp_quickack = res tcp_quickack →
  res' (so_priority 6) = res (so_priority 6) →
  outcome_of (step linux (AcceptCompletes s ec res') w) =
    outcome_of (step linux (AcceptCompletes s ec res) w) ∧
  state_of (step linux (AcceptCompletes s ec res') w) =
    state_of (step linux (AcceptCompletes s ec res) w).
Proof. apply ec_option_failures_ignored. Qed.

Lemma ec_overload_option_results_are_ignored_witness :
  let w := state_of (run true [StartListen] (fresh 4)) in
  outcome_of (step true (AcceptCompletes 0%nat 0 ec_options_fail) w) =
    outcome_of (step true (AcceptCompletes 0%nat 0 all_ok) w) ∧
  state_of (step true (AcceptCompletes 0%nat 0 ec_options_fail) w) =
    state_of (step true (AcceptCompletes 0%nat 0 all_ok) w).
Proof.
  apply (ec_overload_option_results_are_ignored true
           (state_of (run true [StartListen] (fresh 4))) 0%nat 0 all_ok ec_options_fail);
    reflexivity.
Defined.
